(** * ann_scraper: a shallow embedding of [ann_scraper.py]

    The scraper keeps an SQLite table [entry] (one row per catalogue id,
    with the date on which the full record was downloaded) next to one
    XML document per kind ([anime.xml], [manga.xml]) that accumulates the
    downloaded records.  This file embeds the functions of
    [src/ann_scraper.py] that touch those two stores and states the
    properties of the specification over them.

    Conventions of the embedding:
    - Python [int] is [Z]; [len] of a container is [Z.of_nat] of its size;
    - [None]-able values are [option]; a raised exception is [Raise];
    - a [dict] is a [gmap], a [set] of ids is a [gset Z];
    - an [ElementTree] element is the inductive [Element]; a parsed tree
      gives each element an object identity, because [Element.remove]
      compares by identity;
    - the [entry] table is a [gmap Z Row] keyed by the primary key;
    - the network, the random generator and the order of effects are
      explicit: an [Api] oracle, an [Rng] stream and a trace of [event]s. *)

From Stdlib Require Import ZArith Lia DecimalString DecimalPos DecimalZ.
From stdpp Require Import gmap strings list fin_maps fin_sets.

Local Set Warnings "-clear-no-such-hyp".
Local Open Scope string_scope.
Local Open Scope list_scope.
Local Open Scope Z_scope.

(** ** Exceptions and results *)

Inductive exn : Type :=
  | KeyError
  | ValueError
  | ZeroDivisionError
  | IntegrityError
  | URLError.

Inductive result (A : Type) : Type :=
  | Ok (a : A)
  | Raise (e : exn).
Arguments Ok {A} a.
Arguments Raise {A} e.

(** Sequencing: the first exception raised ends the computation. *)
#[global] Instance result_bind : MBind result := fun A B k r =>
  match r with
  | Ok a => k a
  | Raise e => Raise e
  end.

(** ** XML elements *)

(** [xml.etree.ElementTree.Element]: a tag, the attribute dictionary, the
    text and the ordered children. *)
#[warnings="-register-all"]
Inductive Element : Type :=
  mkElement {
    tag : string;
    attrib : gmap string string;
    text : option string;
    children : list Element
  }.

(** [node.find(key)]: the first direct child with that tag. *)
Definition find (key : string) (node : Element) : option Element :=
  list_find (fun c => tag c = key) (children node) ≫= fun p => Some p.2.

(** [tree.findall(key)] on the root: every direct child with that tag, in
    document order. *)
Definition findall (key : string) (nodes : list Element) : list Element :=
  filter (fun c => tag c = key) nodes.

(** A loaded tree: the children of the root, each with the identity of the
    object that [ElementTree.parse] allocated for it. *)
Abbreviation Node := (nat * Element)%type.

(** [ElementTree.parse(path).getroot()]: every child is a fresh object. *)
Definition parse (doc : list Element) : list Node := imap (fun i e => (i, e)) doc.

(** [tree.write(path)]: the children in order; identities are not stored. *)
Definition serialize (root : list Node) : list Element := root.*2.

(** [root.remove(node)]: drops the first child that is the object [node]. *)
Fixpoint remove (node : Node) (root : list Node) : list Node :=
  match root with
  | [] => []
  | c :: rest => if decide (c.1 = node.1) then rest else c :: remove node rest
  end.

(** ** remove_duplicates *)

(** The [for node in root] loop.  [Element] has no [__iter__]; the loop
    reads [root[0]], [root[1]], ... until [IndexError], while [root.remove]
    shortens the very list that is being indexed.  [node.attrib['id']]
    raises [KeyError] when the attribute is missing. *)
Fixpoint remove_duplicates_loop (fuel i : nat) (root : list Node)
    (seen_ids : gset string) : result (list Node) :=
  match fuel with
  | O => Ok root
  | S fuel' =>
      match root !! i with
      | None => Ok root
      | Some node =>
          match attrib node.2 !! "id" with
          | None => Raise KeyError
          | Some entry_id =>
              let root' :=
                if decide (entry_id ∈ seen_ids) then remove node root else root in
              remove_duplicates_loop fuel' (S i) root' ({[entry_id]} ∪ seen_ids)
          end
      end
  end.

(** [remove_duplicates(entry_path)] as a function of the file's content.
    The index grows by one per round and the list never grows, so
    [length] rounds always reach the [IndexError] that ends the loop. *)
Definition remove_duplicates (doc : list Element) : result (list Element) :=
  root ← remove_duplicates_loop (S (length doc)) 0 (parse doc) ∅;
  Ok (serialize root).

(** ** The [entry] table *)

(** The namedtuple [Entry]: what [index_to_tuple] reads from one [<item>]
    of the master list.  Every field is the text of a child element, or
    [None] when the child is missing. *)
Record Entry : Type := mkEntry {
  id : option string;
  gid : option string;
  type : option string;
  name : option string;
  precision : option string;
  vintage : option string;
  generated_on : option string
}.

(** A stored row; the primary key [id] is the key of the table. *)
Record Row : Type := mkRow {
  row_gid : option string;
  row_type : option string;
  row_name : option string;
  row_precision : option string;
  row_vintage : option string;
  row_generated_on : option string
}.

Definition row_of (e : Entry) : Row :=
  mkRow (gid e) (type e) (name e) (precision e) (vintage e) (generated_on e).

Definition set_generated_on (d : option string) (r : Row) : Row :=
  mkRow (row_gid r) (row_type r) (row_name r) (row_precision r) (row_vintage r) d.

(** The INTEGER affinity of the [id] column: a text value that is a
    decimal numeral is stored and compared as that integer.  (SQLite
    also accepts surrounding blanks and real literals with an integral
    value; such texts are treated here as not convertible.) *)
Definition sql_integer (s : string) : option Z :=
  Z.of_int <$> NilZero.int_of_string s.

(** The rowid that SQLite picks for an INTEGER PRIMARY KEY bound to NULL:
    1 in an empty table, else one more than the largest in use. *)
Definition next_rowid (db : gmap Z Row) : Z :=
  match (map_to_list db).*1 with
  | [] => 1
  | k :: ks => 1 + foldr Z.max k ks
  end.

(** One [insert into entry ... values (?, ?, ?, ?, ?, ?, ?)]. *)
Definition insert_entry (db : gmap Z Row) (e : Entry) : result (gmap Z Row) :=
  match id e with
  | None => Ok (<[next_rowid db := row_of e]> db)
  | Some s =>
      match sql_integer s with
      | None => Raise IntegrityError
      | Some k =>
          if decide (is_Some (db !! k)) then Raise IntegrityError
          else Ok (<[k := row_of e]> db)
      end
  end.

(** [insert_entries(conn, values)]: [executemany] stops at the first row
    that violates the primary key. *)
Definition insert_entries (db : gmap Z Row) (values : list Entry) : result (gmap Z Row) :=
  foldl (fun acc e => db' ← acc; insert_entry db' e) (Ok db) values.

(** One [update entry set generated_on=? where entry.id=?].  A NULL id or
    an id that is no row changes nothing. *)
Definition update_entry (db : gmap Z Row) (v : option string * option string) : gmap Z Row :=
  match v.2 ≫= sql_integer with
  | Some k => alter (set_generated_on v.1) k db
  | None => db
  end.

(** [update_entries(conn, values)]. *)
Definition update_entries (db : gmap Z Row) (values : list (option string * option string))
    : gmap Z Row :=
  foldl update_entry db values.

(** [entry_to_tuple(node)]: the pair (generated-on, id) of a record. *)
Definition entry_to_tuple (node : Element) : option string * option string :=
  (attrib node !! "generated-on", attrib node !! "id").

(** [index_to_tuple(node)]. *)
Definition index_to_tuple (node : Element) : Entry :=
  let value key := find key node ≫= text in
  mkEntry (value "id") (value "gid") (value "type") (value "name")
          (value "precision") (value "vintage") None.

(** ** The two queries *)

(** SQL conditions are three-valued: [None] is NULL. *)
Definition sql_not (c : option bool) : option bool := negb <$> c.

Definition sql_and (c1 c2 : option bool) : option bool :=
  match c1, c2 with
  | Some false, _ | _, Some false => Some false
  | Some true, Some true => Some true
  | _, _ => None
  end.

(** [entry.type in ('manga', 'anthology')]. *)
Definition type_in_manga (r : Row) : option bool :=
  t ← row_type r; Some (bool_decide (t = "manga" ∨ t = "anthology")).

(** [where entry.type {} in ('manga', 'anthology')] with the hole filled
    by [not] when [entry_type == 'anime'] and left empty otherwise. *)
Definition where_type (entry_type : string) (r : Row) : option bool :=
  if decide (entry_type = "anime") then sql_not (type_in_manga r) else type_in_manga r.

(** The same with [and entry.generated_on is not null] appended. *)
Definition where_type_seen (entry_type : string) (r : Row) : option bool :=
  sql_and (where_type entry_type r) (Some (bool_decide (is_Some (row_generated_on r)))).

(** A row is returned when the condition is true (not false, not NULL). *)
Definition holds (c : Row -> option bool) (r : Row) : Prop := c r = Some true.

#[global] Instance holds_dec c r : Decision (holds c r).
Proof. unfold holds. apply _. Defined.

(** [select id from entry where c], fetched as a list. *)
Definition select_id (c : Row -> option bool) (db : gmap Z Row) : list Z :=
  (map_to_list (filter (fun kv => holds c kv.2) db)).*1.

(** [select count] of the rows [from entry where c]. *)
Definition select_count (c : Row -> option bool) (db : gmap Z Row) : Z :=
  Z.of_nat (size (filter (fun kv => holds c kv.2) db)).

(** [progress(conn, entry_type)]. *)
Definition progress (db : gmap Z Row) (entry_type : string) : Z * Z :=
  let total := select_count (where_type entry_type) db in
  let seen := select_count (where_type_seen entry_type) db in
  (seen, total).

(** The ids of a kind that are not downloaded yet: the set [not_seen]
    that [download_entries] builds from its two queries. *)
Definition total_id (db : gmap Z Row) (entry_type : string) : list Z :=
  select_id (where_type entry_type) db.

Definition seen_id (db : gmap Z Row) (entry_type : string) : list Z :=
  select_id (where_type_seen entry_type) db.

Definition not_seen_of (db : gmap Z Row) (entry_type : string) : gset Z :=
  list_to_set (total_id db entry_type) ∖ list_to_set (seen_id db entry_type).

(** ** random.sample *)

(** The generator: an infinite stream of raw draws and a read position. *)
Record Rng : Type := mkRng {
  draws : nat -> nat;
  position : nat
}.

(** [randbelow(n)] for [n > 0]. *)
Definition randbelow (n : nat) (g : Rng) : nat * Rng :=
  ((draws g (position g) `mod` n)%nat, mkRng (draws g) (S (position g))).

(** The selection loop of [random.sample]: with [m] live slots in the
    pool, draw [j] below [m], take [pool[j]] and move the last live slot
    into its place. *)
Fixpoint sample_loop (k m : nat) (pool : list Z) (g : Rng) : list Z * Rng :=
  match k with
  | O => ([], g)
  | S k' =>
      let (j, g') := randbelow m g in
      let x := pool !!! j in
      let (rest, g'') := sample_loop k' (m - 1)%nat (<[j := pool !!! (m - 1)%nat]> pool) g' in
      (x :: rest, g'')
  end.

(** [random.sample(population, k)]: [k] elements drawn without
    replacement; [ValueError] when [k] is negative or exceeds the
    population.  The population is the set [not_seen], taken as the
    sequence of its elements, as the Python versions that still accept a
    set do.  (For a large population CPython selects indices instead of
    shrinking a pool; either way the result is [k] distinct elements of
    the population.) *)
Definition random_sample (population : list Z) (k : Z) (g : Rng) : result (list Z * Rng) :=
  if decide (0 ≤ k ≤ Z.of_nat (length population))
  then Ok (sample_loop (Z.to_nat k) (length population) population g)
  else Raise ValueError.

(** Lines 136-139 of [download_entries]: the batch to request.  In the
    first branch [to_download] is the set [not_seen] itself. *)
Definition to_download_of (not_seen : gset Z) (num_batch : Z) (g : Rng)
    : result (gset Z * Rng) :=
  if decide (Z.of_nat (size not_seen) ≤ num_batch) then Ok (not_seen, g)
  else
    match random_sample (elements not_seen) num_batch g with
    | Ok (l, g') => Ok (list_to_set l, g')
    | Raise e => Raise e
    end.

(** ** The world of a run *)

(** What a run does to the outside, in the order in which it does it. *)
Inductive event : Type :=
  | EvRequest (entry_type : string) (ids : gset Z)
  | EvWrite (path : string) (doc : list Element)
  | EvUpdate (values : list (option string * option string))
  | EvLog (num_seen num_total : Z)
  | EvCommit.

(** The catalogue: the answer to the [n]-th request, as the children of
    the root of the response, or a transport failure. *)
Definition Api : Type := nat -> string -> gset Z -> result (list Element).

(** A connection: the rows of the database file and the rows as the open
    transaction sees them. *)
Record Conn : Type := mkConn {
  committed : gmap Z Row;
  working : gmap Z Row
}.

Definition connect (db : gmap Z Row) : Conn := mkConn db db.
Definition commit (c : Conn) : Conn := mkConn (working c) (working c).

Record World : Type := mkWorld {
  files : gmap string (list Element);
  conn : Conn;
  rng : Rng;
  calls : nat;
  trace : list event
}.

Definition emit (e : event) (w : World) : World :=
  mkWorld (files w) (conn w) (rng w) (calls w) (trace w ++ [e]).

Definition set_rng (g : Rng) (w : World) : World :=
  mkWorld (files w) (conn w) g (calls w) (trace w).

(** [urlopen(download_url)] for a batch of ids. *)
Definition request (entry_type : string) (ids : gset Z) (w : World) : World :=
  emit (EvRequest entry_type ids)
       (mkWorld (files w) (conn w) (rng w) (S (calls w)) (trace w)).

(** [local.write(local_xml)]: the file is replaced by the whole tree. *)
Definition write_file (path : string) (doc : list Element) (w : World) : World :=
  emit (EvWrite path doc)
       (mkWorld (<[path := doc]> (files w)) (conn w) (rng w) (calls w) (trace w)).

(** [update_entries(conn, values)] inside the open transaction. *)
Definition run_update (values : list (option string * option string)) (w : World) : World :=
  emit (EvUpdate values)
       (mkWorld (files w)
                (mkConn (committed (conn w)) (update_entries (working (conn w)) values))
                (rng w) (calls w) (trace w)).

(** [conn.commit()]. *)
Definition run_commit (w : World) : World :=
  emit EvCommit (mkWorld (files w) (commit (conn w)) (rng w) (calls w) (trace w)).

(** The progress message, [seen/total*100] with the two counts: the
    division raises when [total] is 0. *)
Definition log_progress (seen total : Z) (w : World) : result World :=
  if decide (total = 0) then Raise ZeroDivisionError
  else Ok (emit (EvLog seen total) w).

(** How a run ends. *)
Inductive outcome : Type :=
  | Done
  | Raised (e : exn)
  | OutOfFuel.

(** ** download_entries *)

Definition xml_path (entry_type : string) : string := entry_type +:+ ".xml".

(** The [while num_entries > 0] loop, lines 132-167. *)
Fixpoint download_loop (fuel : nat) (api : Api) (entry_type : string)
    (total_id : list Z) (num_entries num_batch : Z) (not_seen : gset Z)
    (local : list Element) (w : World) : outcome * World :=
  match fuel with
  | O => (OutOfFuel, w)
  | S fuel' =>
      if decide (num_entries > 0) then
        let num_batch := Z.min num_batch num_entries in
        match to_download_of not_seen num_batch (rng w) with
        | Raise e => (Raised e, w)
        | Ok (to_download, g) =>
            let answer := api (calls w) entry_type to_download in
            let w := request entry_type to_download (set_rng g w) in
            match answer with
            | Raise e => (Raised e, w)
            | Ok tree =>
                let children := findall entry_type tree in
                let local := local ++ children in
                let w := write_file (xml_path entry_type) local w in
                let values := entry_to_tuple <$> children in
                let w := run_update values w in
                let not_seen := not_seen ∖ to_download in
                let num_entries := num_entries - num_batch in
                let num_total := Z.of_nat (length total_id) in
                let num_seen := num_total - Z.of_nat (size not_seen) in
                match log_progress num_seen num_total w with
                | Raise e => (Raised e, w)
                | Ok w =>
                    download_loop fuel' api entry_type total_id num_entries
                      num_batch not_seen local (run_commit w)
                end
            end
        end
      else (Done, w)
  end.

(** [download_entries(path, conn, entry_type, num_entries, num_batch)]. *)
Definition download_entries (fuel : nat) (api : Api) (w : World)
    (entry_type : string) (num_entries num_batch : Z) : outcome * World :=
  let db := working (conn w) in
  let not_seen := not_seen_of db entry_type in
  let num_entries :=
    if decide (num_entries < 0) then Z.of_nat (size not_seen) else num_entries in
  let local := default [] (files w !! xml_path entry_type) in
  download_loop fuel api entry_type (total_id db entry_type) num_entries
    num_batch not_seen local w.

(** ** regenerate_database *)

(** [download_cached(url, filepath)] with [flush=False]: the file is
    fetched only when it does not exist. *)
Definition download_cached (content : list Element) (filepath : string)
    (fs : gmap string (list Element)) : gmap string (list Element) :=
  match fs !! filepath with
  | Some _ => fs
  | None => <[filepath := content]> fs
  end.

(** One round of the [for entry_type in ('anime', 'manga')] loop. *)
Definition load_cached (st : result (gmap Z Row) * gmap string (list Element))
    (entry_type : string) : result (gmap Z Row) * gmap string (list Element) :=
  match st with
  | (Raise e, fs) => (Raise e, fs)
  | (Ok db, fs) =>
      match fs !! xml_path entry_type with
      | None => (Ok db, fs)
      | Some doc =>
          match remove_duplicates doc with
          | Raise e => (Raise e, fs)
          | Ok doc' =>
              (Ok (update_entries db (entry_to_tuple <$> doc')),
               <[xml_path entry_type := doc']> fs)
          end
      end
  end.

(** [regenerate_database(path, db_name)]: the table that is committed,
    and the files as the run leaves them.  [master] is the report that
    the catalogue serves for the master list. *)
Definition regenerate_database (master : list Element)
    (fs : gmap string (list Element))
    : result (gmap Z Row) * gmap string (list Element) :=
  let fs := download_cached master "index.xml" fs in
  let tree := default [] (fs !! "index.xml") in
  let values := index_to_tuple <$> findall "item" tree in
  match insert_entries ∅ values with
  | Raise e => (Raise e, fs)
  | Ok db => foldl load_cached (Ok db, fs) ["anime"; "manga"]
  end.

(** ** main *)

Record Args : Type := mkArgs {
  regenerate_db : bool;
  status : bool;
  arg_num_entries : Z;
  arg_entry_type : string
}.

(** [main(argv)] after the arguments are parsed.  [db] is the content of
    [ann.db] when that file exists.  [download_entries] is called without
    [num_batch], which is then 50. *)
Definition main (fuel : nat) (master : list Element) (api : Api) (args : Args)
    (db : option (gmap Z Row)) (fs : gmap string (list Element)) (g : Rng)
    : outcome * World :=
  let opened :=
    match db with
    | Some rows => if regenerate_db args then regenerate_database master fs
                   else (Ok rows, fs)
    | None => regenerate_database master fs
    end in
  match opened with
  | (Raise e, fs) => (Raised e, mkWorld fs (connect ∅) g 0 [])
  | (Ok rows, fs) =>
      let w := mkWorld fs (connect rows) g 0 [] in
      let reported :=
        if status args then
          let (seen, total) := progress rows (arg_entry_type args) in
          log_progress seen total w
        else Ok w in
      match reported with
      | Raise e => (Raised e, w)
      | Ok w =>
          if negb (regenerate_db args || status args)
          then download_entries fuel api w (arg_entry_type args) (arg_num_entries args) 50
          else (Done, w)
      end
  end.

(** ** Notions and data used by the statements *)

(** A record as the catalogue returns it: [<anime id=.. generated-on=..>]. *)
Definition record (kind ident : string) (date : option string) : Element :=
  {| tag := kind;
     attrib := match date with
               | Some d => <["generated-on" := d]> {["id" := ident]}
               | None => {["id" := ident]}
               end;
     text := None;
     children := [] |}.

(** The ids of a document, in order ([None] for a record without one). *)
Definition ids_of (doc : list Element) : list (option string) :=
  (fun e => attrib e !! "id") <$> doc.

(** The same for the result of [remove_duplicates]. *)
Definition ids_of_result (r : result (list Element)) : result (list (option string)) :=
  d ← r; Ok (ids_of d).

(** A row is fetched when its [generated_on] is not NULL. *)
Definition fetched (db : gmap Z Row) (k : Z) : Prop :=
  ∃ r, db !! k = Some r ∧ is_Some (row_generated_on r).

(** A row that was fetched in May 2016. *)
Definition fetched_row : Row :=
  mkRow (Some "1") (Some "TV") (Some "Title") None None (Some "2016-05-01").

(** The two buckets in the words of the specification: a kind string is
    manga-like when it is [manga] or [anthology]; every other string goes
    with [anime]. *)
Definition manga_like (s : string) : Prop := s = "manga" ∨ s = "anthology".

(** An anthology, not fetched yet. *)
Definition anthology_row : Row :=
  mkRow (Some "7") (Some "anthology") (Some "Collected") None None None.

(** The bucket of a request in the words of the specification. *)
Definition in_bucket (entry_type : string) (r : Row) : Prop :=
  ∃ s, row_type r = Some s ∧
       if decide (entry_type = "anime") then ¬ manga_like s else manga_like s.

#[global] Instance manga_like_dec s : Decision (manga_like s).
Proof. unfold manga_like. apply _. Defined.

#[global] Instance in_bucket_dec entry_type r : Decision (in_bucket entry_type r).
Proof.
  unfold in_bucket. destruct (row_type r) as [s|].
  - destruct (decide (entry_type = "anime")), (decide (manga_like s));
      first [ by left; eauto | right; intros (s' & ? & ?); by simplify_eq ].
  - right. intros (s' & ? & ?). done.
Defined.

(** The status path of [main]: [-s] on an existing database. *)
Definition status_args (entry_type : string) : Args := mkArgs false true 50 entry_type.

(** A generator for the examples: the draws 3, 10, 17, ... *)
Definition counting_rng : Rng := mkRng (λ n, (7 * n + 3)%nat) 0.

(** Deduplication in the words of the specification: one pass that keeps
    the first occurrence of every id and drops the later ones. *)
Fixpoint first_occurrences (seen : list (option string))
    (ids : list (option string)) : list (option string) :=
  match ids with
  | [] => []
  | i :: rest =>
      if decide (i ∈ seen) then first_occurrences seen rest
      else i :: first_occurrences (i :: seen) rest
  end.

(** A document of date-less anime records with the given ids. *)
Definition anime_records (ids : list string) : list Element :=
  (λ i, record "anime" i None) <$> ids.

(** One [<item>] of the master list. *)
Definition item (i t : string) : Element :=
  mkElement "item" ∅ None
    [mkElement "id" ∅ (Some i) []; mkElement "type" ∅ (Some t) []].

(** A master list of two entries. *)
Definition master_two : list Element := [item "1" "TV"; item "2" "TV"].

(** [anime.xml] after a batch with ids 1 and 2 was written twice, on two
    different days. *)
Definition anime_twice : list Element :=
  [record "anime" "1" (Some "2016-05-01"); record "anime" "2" (Some "2016-05-01");
   record "anime" "1" (Some "2016-06-01"); record "anime" "2" (Some "2016-06-01")].

(** The [generated_on] column of a regenerated table, by id. *)
Definition dates_of (r : result (gmap Z Row)) : option (list (Z * option string)) :=
  match r with
  | Ok db => Some ((λ kv, (kv.1, row_generated_on kv.2)) <$> map_to_list db)
  | Raise _ => None
  end.

(** The id sets requested by a trace, in order. *)
Definition requested (t : list event) : list (gset Z) :=
  t ≫= λ ev, match ev with EvRequest _ ids => [ids] | _ => [] end.

(** The tuples handed to [update_entries] by a trace. *)
Definition marked (t : list event) : list (option string * option string) :=
  t ≫= λ ev, match ev with EvUpdate values => values | _ => [] end.

(** The content of [path] after a trace, starting from [doc]. *)
Definition persisted (path : string) (doc : list Element) (t : list event) : list Element :=
  foldl (λ d ev, match ev with
                 | EvWrite p d' => if decide (p = path) then d' else d
                 | _ => d
                 end) doc t.

(** The files after a trace: every write replaces its file. *)
Definition replay_files (fs : gmap string (list Element)) (t : list event)
    : gmap string (list Element) :=
  foldl (λ fs ev, match ev with
                  | EvWrite p d => <[p := d]> fs
                  | _ => fs
                  end) fs t.

(** The connection after a trace: updates go to the open transaction,
    a commit makes them the content of the database file.  What a run
    that is cut after the trace [t] leaves behind is
    [replay_files fs t] and [committed (replay_conn c t)]. *)
Definition replay_conn (c : Conn) (t : list event) : Conn :=
  foldl (λ c ev, match ev with
                 | EvUpdate values =>
                     mkConn (committed c) (update_entries (working c) values)
                 | EvCommit => commit c
                 | _ => c
                 end) c t.

(** The shape of what the loop emits when it starts with the tree
    [local]: whole rounds, and possibly a last round cut short by an
    exception. *)
Inductive rounds (entry_type : string) : list Element → list event → Prop :=
  | rounds_done local :
      rounds entry_type local []
  | rounds_failed_request local ids :
      rounds entry_type local [EvRequest entry_type ids]
  | rounds_failed_log local ids children :
      rounds entry_type local
        [EvRequest entry_type ids;
         EvWrite (xml_path entry_type) (local ++ children);
         EvUpdate (entry_to_tuple <$> children)]
  | rounds_next local ids children seen total t :
      rounds entry_type (local ++ children) t →
      rounds entry_type local
        (EvRequest entry_type ids
         :: EvWrite (xml_path entry_type) (local ++ children)
         :: EvUpdate (entry_to_tuple <$> children)
         :: EvLog seen total :: EvCommit :: t).

(** Splits a prefix of a list that starts with a known event. *)
Ltac peel p H :=
  destruct p as [|? p];
  [ | pose proof (prefix_cons_inv_1 _ _ _ _ H) as ->;
      apply prefix_cons_inv_2 in H ].

(** The number of rounds for a count [n] and a batch size [b]: the
    ceiling of [n / b], and none for a count that is not positive. *)
Definition rounds_needed (n b : Z) : nat :=
  if decide (n > 0) then Z.to_nat ((n + b - 1) / b) else 0%nat.

(** The count the loop starts with. *)
Definition effective_count (w : World) (entry_type : string) (num_entries : Z) : Z :=
  if decide (num_entries < 0)
  then Z.of_nat (size (not_seen_of (working (conn w)) entry_type))
  else num_entries.

(** One anime entry, not fetched yet. *)
Definition one_anime : gmap Z Row :=
  {[ 1 := mkRow (Some "1") (Some "TV") (Some "Title") None None None ]}.

(** A catalogue that knows the record of id 1. *)
Definition api_one : Api := λ _ entry_type ids,
  Ok (if decide (1 ∈ ids) then [record entry_type "1" (Some "2016-05-01")] else []).

(** A fresh run on [one_anime], without files. *)
Definition world_one : World :=
  mkWorld ∅ (connect one_anime) counting_rng 0 [].

(** Three entries; id 1 is fetched, ids 2 and 3 are not. *)
Definition three_anime : gmap Z Row :=
  {[ 1 := fetched_row;
     2 := mkRow (Some "2") (Some "TV") (Some "Second") None None None;
     3 := mkRow (Some "3") (Some "OAV") (Some "Third") None None None ]}.

(** A fresh run on [three_anime], without files. *)
Definition world_three : World :=
  mkWorld ∅ (connect three_anime) counting_rng 0 [].

(** A catalogue that answers every request with no record. *)
Definition api_nothing : Api := λ _ _ _, Ok [].

(** A fresh run on an empty table, without files. *)
Definition world_empty : World := mkWorld ∅ (connect ∅) counting_rng 0 [].

(** A document in which every record has an id and no id occurs twice. *)
Definition clean (doc : list Element) : Prop :=
  ∃ ids, ids_of doc = Some <$> ids ∧ NoDup ids.

(** A hundred anime entries, the first 37 of them fetched. *)
Definition hundred : gmap Z Row :=
  list_to_map ((λ i : nat,
    (Z.of_nat i,
     mkRow None (Some "TV") None None None
           (if decide (i ≤ 37)%nat then Some "2016-05-01" else None)))
    <$> seq 1 100).

(** The id attribute of a loaded record. *)
Definition node_id (n : Node) : option string := attrib n.2 !! "id".

(** Rows that agree on every column but [generated_on]. *)
Definition same_entry (r r' : Row) : Prop :=
  r' = set_generated_on (row_generated_on r') r.

(** A catalogue that answers every request for the kind with a dated
    record for each requested id (and possibly more dated records). *)
Definition answers_dated (api : Api) (entry_type : string) : Prop :=
  ∀ n ids, ∃ tree,
    api n entry_type ids = Ok tree
    ∧ (∀ k, k ∈ ids → ∃ node s, node ∈ findall entry_type tree
                               ∧ attrib node !! "id" = Some s
                               ∧ sql_integer s = Some k)
    ∧ (∀ node, node ∈ findall entry_type tree →
               is_Some (attrib node !! "generated-on")).

(** A catalogue that serves a dated record for every requested id. *)
Definition api_all : Api := λ _ entry_type ids,
  Ok ((λ k, record entry_type
              (NilZero.string_of_int (Z.to_int k)) (Some "2016-07-01"))
      <$> elements ids).


(** * Properties *)

(** ** The queries *)

Section queries.
Context (c : Row → option bool) (db : gmap Z Row).

Lemma elem_of_select_id k :
  k ∈ select_id c db ↔ ∃ r, db !! k = Some r ∧ c r = Some true.
Proof.
  unfold select_id. rewrite list_elem_of_fmap. split.
  - intros [[k' r] [-> H]]. apply elem_of_map_to_list in H.
    apply map_lookup_filter_Some in H as [H1 H2]. eauto.
  - intros (r & H1 & H2). exists (k, r). split; [done|].
    apply elem_of_map_to_list. apply map_lookup_filter_Some. done.
Qed.

Lemma select_id_NoDup : NoDup (select_id c db).
Proof. unfold select_id. apply NoDup_fst_map_to_list. Qed.

Lemma select_count_length :
  select_count c db = Z.of_nat (length (select_id c db)).
Proof.
  unfold select_count, select_id. rewrite length_fmap.
  by rewrite length_map_to_list.
Qed.
End queries.

Lemma where_type_seen_true entry_type r :
  where_type_seen entry_type r = Some true ↔
  where_type entry_type r = Some true ∧ is_Some (row_generated_on r).
Proof.
  unfold where_type_seen, sql_and.
  destruct (where_type entry_type r) as [[]|], (row_generated_on r);
    simpl; split; try naive_solver; intros [? [? ?]]; simplify_eq.
Qed.

Lemma elem_of_not_seen_of db entry_type k :
  k ∈ not_seen_of db entry_type ↔
  ∃ r, db !! k = Some r ∧ where_type entry_type r = Some true
       ∧ row_generated_on r = None.
Proof.
  unfold not_seen_of, total_id, seen_id.
  rewrite elem_of_difference, !elem_of_list_to_set, !elem_of_select_id.
  split.
  - intros [(r & Hr & Hc) Hn]. exists r. split_and!; [done..|].
    destruct (row_generated_on r) eqn:Hg; [|done].
    exfalso. apply Hn. exists r. split; [done|].
    apply where_type_seen_true. rewrite Hg. eauto.
  - intros (r & Hr & Hc & Hg). split; [eauto|].
    intros (r' & Hr' & Hc'). simplify_eq.
    apply where_type_seen_true in Hc' as [_ [? ?]]. congruence.
Qed.

Lemma fetched_not_in_not_seen db entry_type k :
  fetched db k → k ∉ not_seen_of db entry_type.
Proof.
  intros (r & Hr & [d Hd]) (r' & Hr' & _ & Hg)%elem_of_not_seen_of.
  simplify_eq.
Qed.

Lemma not_seen_subseteq_total db entry_type :
  not_seen_of db entry_type ⊆ list_to_set (total_id db entry_type).
Proof. unfold not_seen_of. set_solver. Qed.

Lemma size_not_seen_le_total db entry_type :
  (size (not_seen_of db entry_type) ≤ length (total_id db entry_type))%nat.
Proof.
  etrans; [apply subseteq_size, not_seen_subseteq_total|].
  rewrite size_list_to_set; [done|]. apply select_id_NoDup.
Qed.

(** ** update_entries *)

Lemma update_entry_fetched db v k :
  is_Some v.1 → fetched db k → fetched (update_entry db v) k.
Proof.
  intros Hv (r & Hr & Hg). unfold update_entry.
  destruct (v.2 ≫= sql_integer) as [k'|]; [|by exists r].
  destruct (decide (k' = k)) as [->|Hne].
  - exists (set_generated_on v.1 r). split; [|done].
    by rewrite lookup_alter_eq, Hr.
  - exists r. split; [|done]. by rewrite lookup_alter_ne.
Qed.

Lemma update_entries_fetched db values k :
  Forall (λ v, is_Some v.1) values → fetched db k →
  fetched (update_entries db values) k.
Proof.
  unfold update_entries. intros Hall. revert db.
  induction Hall as [|v values Hv _ IH]; intros db Hk; [done|].
  simpl. apply IH. by apply update_entry_fetched.
Qed.

(** C2, as stated, fails: a record without [generated-on] makes
    [entry_to_tuple] return [None] for the date, and [update_entries]
    writes that NULL over the date of a fetched row, which puts the id
    back among the unfetched ones. *)
Lemma update_entries_can_reset_date :
  let db : gmap Z Row := {[ 1 := fetched_row ]} in
  let db' := update_entries db [entry_to_tuple (record "anime" "1" None)] in
  fetched db 1 ∧ (1 ∉ not_seen_of db "anime")
  ∧ row_generated_on <$> (db' !! 1) = Some None
  ∧ 1 ∈ not_seen_of db' "anime".
Proof.
  intros db db'.
  assert (Hf : fetched db 1) by (exists fetched_row; split; [|eexists]; reflexivity).
  split_and!; [done| by apply fetched_not_in_not_seen | reflexivity |].
  apply elem_of_not_seen_of. eexists. split_and!; reflexivity.
Qed.

(** C2 (amended): as long as every tuple handed to [update_entries]
    carries a date, i.e. every record has a [generated-on] attribute, a
    row whose [generated_on] is not NULL keeps a non-NULL [generated_on]
    through any sequence of [update_entries] calls and stays out of the
    unfetched set of every kind. *)
Theorem fetch_status_monotone (db : gmap Z Row)
    (batches : list (list (option string * option string)))
    (k : Z) (entry_type : string) :
  Forall (Forall (λ v, is_Some v.1)) batches →
  fetched db k →
  fetched (foldl update_entries db batches) k
  ∧ k ∉ not_seen_of (foldl update_entries db batches) entry_type.
Proof.
  intros Hall Hk.
  assert (fetched (foldl update_entries db batches) k) as Hf.
  { revert db Hk. induction Hall as [|b bs Hb _ IH]; intros db Hk; [done|].
    simpl. apply IH. by apply update_entries_fetched. }
  split; [done|]. by apply fetched_not_in_not_seen.
Qed.

Lemma fetch_status_monotone_witness :
  let db : gmap Z Row := {[ 1 := fetched_row ]} in
  let batches := [[entry_to_tuple (record "anime" "1" (Some "2017-01-01"))];
                  [entry_to_tuple (record "anime" "2" (Some "2017-01-02"))]] in
  fetched (foldl update_entries db batches) 1
  ∧ 1 ∉ not_seen_of (foldl update_entries db batches) "anime".
Proof.
  intros db batches. apply (fetch_status_monotone db batches 1 "anime").
  - repeat constructor; vm_compute; eauto.
  - exists fetched_row. split; [reflexivity|]. vm_compute. eauto.
Defined.

(** ** Kind buckets *)

Lemma where_type_string entry_type r s :
  row_type r = Some s →
  where_type entry_type r = Some true ↔
  if decide (entry_type = "anime") then ¬ manga_like s else manga_like s.
Proof.
  intros Hs. unfold where_type, type_in_manga, manga_like. rewrite Hs. simpl.
  destruct (decide (entry_type = "anime")); simpl;
    case_bool_decide; simpl; naive_solver.
Qed.

(** A row without a kind (no [<type>] child in the master list) is in
    neither bucket: both conditions are NULL for it. *)
Lemma where_type_null entry_type r :
  row_type r = None → where_type entry_type r = None.
Proof.
  intros Hs. unfold where_type, type_in_manga. rewrite Hs.
  by destruct (decide (entry_type = "anime")).
Qed.

(** C3: an entry whose kind is the string [s] is selected by a manga-like
    request (any [entry_type] other than [anime]) exactly when [s] is
    [manga] or [anthology], and by an [anime] request exactly when it is
    any other string; [download_entries] (all ids, unfetched ids) and
    [progress] (the two counts) use this one rule. *)
Theorem kind_bucketing (db : gmap Z Row) (k : Z) (r : Row) (s entry_type : string) :
  db !! k = Some r →
  row_type r = Some s →
  let bucket := if decide (entry_type = "anime") then ¬ manga_like s else manga_like s in
  (k ∈ total_id db entry_type ↔ bucket)
  ∧ (k ∈ not_seen_of db entry_type ↔ bucket ∧ row_generated_on r = None)
  ∧ (k ∈ seen_id db entry_type ↔ bucket ∧ is_Some (row_generated_on r))
  ∧ progress db entry_type =
      (Z.of_nat (length (seen_id db entry_type)),
       Z.of_nat (length (total_id db entry_type))).
Proof.
  intros Hk Hs bucket. pose proof (where_type_string entry_type r s Hs) as Hw.
  split_and!.
  - unfold total_id. rewrite elem_of_select_id. split.
    + intros (r' & Hr' & Hc). simplify_eq. by apply Hw.
    + intros Hb. exists r. split; [done|]. by apply Hw.
  - rewrite elem_of_not_seen_of. split.
    + intros (r' & Hr' & Hc & Hg). simplify_eq. split; [by apply Hw|done].
    + intros [Hb Hg]. exists r. split_and!; [done| by apply Hw |done].
  - unfold seen_id. rewrite elem_of_select_id. split.
    + intros (r' & Hr' & Hc). simplify_eq.
      apply where_type_seen_true in Hc as [Hc Hg]. split; [by apply Hw|done].
    + intros [Hb Hg]. exists r. split; [done|].
      apply where_type_seen_true. split; [by apply Hw|done].
  - unfold progress, seen_id, total_id. by rewrite !select_count_length.
Qed.

Lemma kind_bucketing_witness :
  let db : gmap Z Row := {[ 7 := anthology_row ]} in
  (7 ∈ total_id db "manga" ↔ manga_like "anthology")
  ∧ (7 ∈ not_seen_of db "manga" ↔ manga_like "anthology" ∧ row_generated_on anthology_row = None)
  ∧ (7 ∈ seen_id db "manga" ↔ manga_like "anthology" ∧ is_Some (row_generated_on anthology_row))
  ∧ progress db "manga" =
      (Z.of_nat (length (seen_id db "manga")), Z.of_nat (length (total_id db "manga"))).
Proof.
  intros db.
  apply (kind_bucketing db 7 anthology_row "anthology" "manga"); reflexivity.
Defined.

(** ** progress *)

Lemma holds_where_type entry_type r :
  holds (where_type entry_type) r ↔ in_bucket entry_type r.
Proof.
  unfold holds, in_bucket. destruct (row_type r) as [s|] eqn:Hs.
  - rewrite (where_type_string _ _ _ Hs). naive_solver.
  - rewrite where_type_null by done. naive_solver.
Qed.

Lemma holds_where_type_seen entry_type r :
  holds (where_type_seen entry_type) r ↔
  in_bucket entry_type r ∧ is_Some (row_generated_on r).
Proof.
  unfold holds. rewrite where_type_seen_true.
  by rewrite <- holds_where_type.
Qed.

(** C5, as stated, fails: on a store with no entry of the kind,
    [progress] returns [(0, 0)] like any other pair, and the caller then
    divides by the total, which raises [ZeroDivisionError]. *)
Lemma progress_empty_store :
  progress ∅ "anime" = (0, 0)
  ∧ (main 1 master_two api_nothing (status_args "anime") (Some ∅) ∅ counting_rng).1
    = Raised ZeroDivisionError.
Proof. split; reflexivity. Qed.

(** C5 (amended): [progress] returns, for every store and kind, the pair
    (fetched, total) where total counts the entries of the kind bucket
    and fetched those of them with a non-NULL [generated_on]; it never
    fails, and on an empty bucket the pair is [(0, 0)]. *)
Theorem progress_counts (db : gmap Z Row) (entry_type : string) :
  progress db entry_type =
    (Z.of_nat (size (filter (λ kv, in_bucket entry_type kv.2
                                   ∧ is_Some (row_generated_on kv.2)) db)),
     Z.of_nat (size (filter (λ kv, in_bucket entry_type kv.2) db)))
  ∧ (progress db entry_type).1 ≤ (progress db entry_type).2
  ∧ ((progress db entry_type).2 = 0 → progress db entry_type = (0, 0)).
Proof.
  assert (progress db entry_type =
    (Z.of_nat (size (filter (λ kv, in_bucket entry_type kv.2
                                   ∧ is_Some (row_generated_on kv.2)) db)),
     Z.of_nat (size (filter (λ kv, in_bucket entry_type kv.2) db)))) as Heq.
  { unfold progress, select_count. f_equal; f_equal; f_equal.
    - apply map_filter_ext. intros. apply holds_where_type_seen.
    - apply map_filter_ext. intros. apply holds_where_type. }
  assert (size (filter (λ kv : Z * Row, in_bucket entry_type kv.2
                                   ∧ is_Some (row_generated_on kv.2)) db)
          ≤ size (filter (λ kv : Z * Row, in_bucket entry_type kv.2) db))%nat as Hle.
  { apply map_subseteq_size. apply map_filter_strong_subseteq_ext.
    intros i x [[? ?] ?]. done. }
  split; [done|]. rewrite Heq. simpl. split; [lia|].
  intros H0. f_equal; lia.
Qed.

Example progress_37_of_100 : progress hundred "anime" = (37, 100).
Proof. vm_compute. reflexivity. Qed.

(** With entries in the bucket, [-s] reports the two counts and changes
    neither the files nor the database. *)
Lemma main_status_reports fuel master api entry_type db fs g :
  (progress db entry_type).2 ≠ 0 →
  main fuel master api (status_args entry_type) (Some db) fs g
  = (Done, mkWorld fs (connect db) g 0
             [EvLog (progress db entry_type).1 (progress db entry_type).2]).
Proof.
  intros Htot. unfold main, status_args.
  cbn [regenerate_db status arg_entry_type arg_num_entries].
  destruct (progress db entry_type) as [seen total]. simpl in Htot.
  unfold log_progress. rewrite decide_False by done. reflexivity.
Qed.

(** ** Sampling *)

(** Taking slot [j] out of the [S m] live slots and moving the last live
    slot into its place leaves the other live elements, up to order. *)
Lemma pool_step (pool : list Z) (m j : nat) :
  (j ≤ m)%nat → (m < length pool)%nat →
  take (S m) pool ≡ₚ pool !!! j :: take m (<[j := pool !!! m]> pool).
Proof.
  intros Hj Hm.
  destruct (lookup_lt_is_Some_2 pool m Hm) as [y Hy].
  rewrite (list_lookup_total_correct _ _ _ Hy).
  rewrite (take_S_r _ _ _ Hy).
  destruct (decide (j = m)) as [->|Hne].
  - rewrite (list_lookup_total_correct _ _ _ Hy).
    rewrite take_insert_ge by lia.
    by rewrite Permutation_app_comm.
  - assert (j < m)%nat as Hlt by lia.
    destruct (lookup_lt_is_Some_2 pool j ltac:(lia)) as [x Hx].
    rewrite (list_lookup_total_correct _ _ _ Hx).
    rewrite take_insert_lt by done.
    assert (take m pool !! j = Some x) as Hx' by (by rewrite lookup_take_lt).
    rewrite <- (take_drop_middle _ _ _ Hx') at 1.
    rewrite (insert_take_drop (take m pool)) by (rewrite length_take; lia).
    rewrite <- app_assoc. simpl.
    rewrite <- !Permutation_middle. constructor.
    rewrite app_assoc. by rewrite Permutation_app_comm.
Qed.

Lemma sample_loop_spec (k : nat) : ∀ (m : nat) (pool : list Z) (g : Rng),
  (k ≤ m)%nat → (m ≤ length pool)%nat → NoDup (take m pool) →
  length (sample_loop k m pool g).1 = k
  ∧ NoDup (sample_loop k m pool g).1
  ∧ ∀ x, x ∈ (sample_loop k m pool g).1 → x ∈ take m pool.
Proof.
  induction k as [|k IH]; intros m pool g Hk Hm Hnd; simpl.
  { split_and!; [done|constructor|]. intros x Hx. by apply elem_of_nil in Hx. }
  destruct m as [|m]; [lia|].
  set (j := (draws g (position g) `mod` S m)%nat).
  assert (j ≤ m)%nat as Hj.
  { pose proof (Nat.mod_upper_bound (draws g (position g)) (S m)). lia. }
  replace (S m - 1)%nat with m by lia.
  pose proof (pool_step pool m j Hj ltac:(lia)) as Hperm.
  set (pool' := <[j := pool !!! m]> pool) in *.
  set (g' := mkRng (draws g) (S (position g))).
  rewrite Hperm in Hnd. apply NoDup_cons in Hnd as [Hx Hnd].
  destruct (IH m pool' g' ltac:(lia)
              ltac:(unfold pool'; rewrite length_insert; lia) Hnd)
    as (Hlen & Hnd' & Hin).
  destruct (sample_loop k m pool' g') as [rest g''] eqn:Hs. simpl in *.
  split_and!.
  - by rewrite Hlen.
  - apply NoDup_cons. split; [|done]. intros Hc. apply Hx. by apply Hin.
  - intros x [->|Hx']%elem_of_cons; rewrite Hperm.
    + apply elem_of_cons. by left.
    + apply elem_of_cons. right. by apply Hin.
Qed.

(** [random.sample]: for [0 <= k <= len(population)] and a population
    without repetition, the sample has [k] distinct elements, all of
    them from the population. *)
Lemma random_sample_spec (population : list Z) (k : Z) (g : Rng) :
  0 ≤ k ≤ Z.of_nat (length population) → NoDup population →
  ∃ l g', random_sample population k g = Ok (l, g')
          ∧ Z.of_nat (length l) = k ∧ NoDup l ∧ l ⊆ population.
Proof.
  intros Hk Hnd. unfold random_sample. rewrite decide_True by done.
  destruct (sample_loop_spec (Z.to_nat k) (length population) population g
              ltac:(lia) ltac:(lia)) as (Hlen & Hnd' & Hin).
  { by rewrite firstn_all. }
  destruct (sample_loop _ _ _ _) as [l g']. simpl in *.
  exists l, g'. split_and!; [done|lia|done|].
  intros x Hx. specialize (Hin x Hx). by rewrite firstn_all in Hin.
Qed.

(** The batch: a subset of [not_seen] of the size of the smaller of
    [not_seen] and the batch size. *)
Lemma to_download_of_spec (not_seen : gset Z) (num_batch : Z) (g : Rng) :
  0 < num_batch →
  ∃ to_download g',
    to_download_of not_seen num_batch g = Ok (to_download, g')
    ∧ to_download ⊆ not_seen
    ∧ Z.of_nat (size to_download) = Z.min (Z.of_nat (size not_seen)) num_batch
    ∧ (Z.of_nat (size not_seen) ≤ num_batch → to_download = not_seen)
    ∧ (num_batch < Z.of_nat (size not_seen) →
       ∃ l, random_sample (elements not_seen) num_batch g = Ok (l, g')
            ∧ NoDup l ∧ Z.of_nat (length l) = num_batch
            ∧ to_download = list_to_set l).
Proof.
  intros Hpos. unfold to_download_of.
  destruct (decide (Z.of_nat (size not_seen) ≤ num_batch)) as [Hle|Hgt].
  - exists not_seen, g. split_and!; [done|done|lia|done|lia].
  - destruct (random_sample_spec (elements not_seen) num_batch g)
      as (l & g' & Hs & Hlen & Hnd & Hsub).
    { change (length (elements not_seen)) with (size not_seen). lia. }
    { apply NoDup_elements. }
    rewrite Hs. exists (list_to_set l), g'. split_and!.
    + done.
    + intros x Hx%elem_of_list_to_set. apply elem_of_elements. by apply Hsub.
    + rewrite size_list_to_set by done. lia.
    + lia.
    + intros _. by exists l.
Qed.

(** C4: for every set [not_seen] and every batch size above 0, the batch
    to download is a subset of [not_seen] with exactly
    [min(len(not_seen), num_batch)] elements; it is the whole of
    [not_seen] when that fits in a batch, and otherwise the set of a
    sample of [num_batch] distinct elements. *)
Theorem to_download_bounds (not_seen : gset Z) (num_batch : Z) (g : Rng) :
  0 < num_batch →
  ∃ to_download g',
    to_download_of not_seen num_batch g = Ok (to_download, g')
    ∧ to_download ⊆ not_seen
    ∧ Z.of_nat (size to_download) = Z.min (Z.of_nat (size not_seen)) num_batch
    ∧ (Z.of_nat (size not_seen) ≤ num_batch → to_download = not_seen)
    ∧ (num_batch < Z.of_nat (size not_seen) →
       ∃ l, random_sample (elements not_seen) num_batch g = Ok (l, g')
            ∧ NoDup l ∧ Z.of_nat (length l) = num_batch
            ∧ to_download = list_to_set l).
Proof. apply to_download_of_spec. Qed.

Lemma to_download_bounds_witness :
  ∃ to_download g',
    to_download_of {[10; 20; 30; 40; 50]} 3 counting_rng = Ok (to_download, g')
    ∧ to_download ⊆ {[10; 20; 30; 40; 50]}
    ∧ Z.of_nat (size to_download)
      = Z.min (Z.of_nat (size ({[10; 20; 30; 40; 50]} : gset Z))) 3
    ∧ (Z.of_nat (size ({[10; 20; 30; 40; 50]} : gset Z)) ≤ 3 →
       to_download = {[10; 20; 30; 40; 50]})
    ∧ (3 < Z.of_nat (size ({[10; 20; 30; 40; 50]} : gset Z)) →
       ∃ l, random_sample (elements ({[10; 20; 30; 40; 50]} : gset Z)) 3 counting_rng
            = Ok (l, g')
            ∧ NoDup l ∧ Z.of_nat (length l) = 3
            ∧ to_download = list_to_set l).
Proof. apply (to_download_bounds {[10; 20; 30; 40; 50]} 3 counting_rng). lia. Defined.

Example random_sample_5_3 :
  fst <$> (match random_sample [10; 20; 30; 40; 50] 3 counting_rng with
           | Ok p => Some p | Raise _ => None end)
  = Some [40; 30; 50].
Proof. vm_compute. reflexivity. Qed.

(** ** remove_duplicates *)

Lemma remove_length node root : (length (remove node root) ≤ length root)%nat.
Proof.
  induction root as [|c rest IH]; simpl; [done|].
  destruct (decide (c.1 = node.1)); simpl; lia.
Qed.

Lemma remove_duplicates_loop_unfold fuel i root seen_ids :
  remove_duplicates_loop (S fuel) i root seen_ids =
  match root !! i with
  | None => Ok root
  | Some node =>
      match attrib node.2 !! "id" with
      | None => Raise KeyError
      | Some entry_id =>
          remove_duplicates_loop fuel (S i)
            (if decide (entry_id ∈ seen_ids) then remove node root else root)
            ({[entry_id]} ∪ seen_ids)
      end
  end.
Proof. reflexivity. Qed.

(** The loop ends on the [IndexError], not on the fuel: any two amounts
    of fuel that cover the rest of the list give the same result. *)
Lemma remove_duplicates_loop_fuel (fuel : nat) : ∀ fuel' i root seen_ids,
  (length root ≤ i + fuel)%nat → (length root ≤ i + fuel')%nat →
  remove_duplicates_loop fuel i root seen_ids
  = remove_duplicates_loop fuel' i root seen_ids.
Proof.
  induction fuel as [|fuel IH]; intros fuel' i root seen Hf Hf'.
  - destruct fuel' as [|fuel']; [done|].
    rewrite remove_duplicates_loop_unfold.
    by rewrite lookup_ge_None_2 by lia.
  - rewrite remove_duplicates_loop_unfold. destruct fuel' as [|fuel'].
    + by rewrite lookup_ge_None_2 by lia.
    + rewrite remove_duplicates_loop_unfold.
      destruct (root !! i) as [node|]; [|done].
      destruct (attrib node.2 !! "id") as [entry_id|]; [|done].
      apply IH; destruct (decide (entry_id ∈ seen));
        try (pose proof (remove_length node root)); lia.
Qed.

(** The objects of a parsed tree are pairwise distinct. *)
Lemma parse_identities doc : (parse doc).*1 = seq 0 (length doc).
Proof.
  unfold parse.
  assert (∀ n, (imap (λ i e, ((n + i)%nat, e)) doc).*1 = seq n (length doc)) as H.
  { induction doc as [|e doc IH]; intros n; simpl; [done|].
    rewrite Nat.add_0_r. f_equal.
    rewrite <- (IH (S n)). f_equal. apply imap_ext. intros. simpl.
    f_equal. lia. }
  apply (H 0%nat).
Qed.

(** Among distinct objects, [root.remove(root[i])] deletes slot [i]. *)
Lemma remove_is_delete (root : list Node) : ∀ i node,
  NoDup root.*1 → root !! i = Some node → remove node root = delete i root.
Proof.
  induction root as [|c rest IH]; intros i node Hnd Hi; [done|].
  apply NoDup_cons in Hnd as [Hc Hnd].
  destruct i as [|i]; simpl in *.
  - simplify_eq. by rewrite decide_True.
  - rewrite decide_False.
    + f_equal. by apply IH.
    + intros Heq. apply Hc. rewrite Heq.
      apply list_elem_of_fmap. exists node. split; [done|].
      by eapply list_elem_of_lookup_2.
Qed.

Lemma remove_identities node (root : list Node) :
  NoDup root.*1 → NoDup (remove node root).*1.
Proof.
  induction root as [|c rest IH]; intros Hnd; [done|]. simpl in *.
  apply NoDup_cons in Hnd as [Hc Hnd].
  destruct (decide (c.1 = node.1)); [done|]. simpl.
  apply NoDup_cons. split; [|by apply IH].
  intros Hin. apply Hc. clear -Hin.
  induction rest as [|c' rest IH]; simpl in *; [done|].
  destruct (decide (c'.1 = node.1)); [by right|].
  simpl in Hin. apply elem_of_cons in Hin as [->|Hin]; [by left|right; by apply IH].
Qed.

(** [remove_duplicates] gives its loop enough rounds: more fuel changes
    nothing. *)
Lemma remove_duplicates_fuel doc fuel :
  (length doc ≤ fuel)%nat →
  remove_duplicates_loop fuel 0 (parse doc) ∅
  = remove_duplicates_loop (S (length doc)) 0 (parse doc) ∅.
Proof.
  intros Hfuel.
  assert (length (parse doc) = length doc) as Hlen.
  { rewrite <- (length_fmap fst), parse_identities. apply length_seq. }
  apply remove_duplicates_loop_fuel; rewrite Hlen; lia.
Qed.

Lemma remove_duplicates_loop_clean (fuel : nat) : ∀ i (root : list Node) seen_ids ids,
  (λ n : Node, attrib n.2 !! "id") <$> drop i root = Some <$> ids →
  NoDup ids → (∀ x, x ∈ ids → x ∉ seen_ids) →
  remove_duplicates_loop fuel i root seen_ids = Ok root.
Proof.
  induction fuel as [|fuel IH]; intros i root seen ids Hids Hnd Hseen; [done|].
  rewrite remove_duplicates_loop_unfold.
  destruct (root !! i) as [node|] eqn:Hi; [|done].
  rewrite (drop_S _ _ _ Hi) in Hids.
  destruct ids as [|x ids]; [done|]. simpl in Hids. simplify_eq.
  match goal with H : attrib _ !! _ = Some _ |- _ => rewrite H end.
  apply NoDup_cons in Hnd as [Hx Hnd].
  rewrite decide_False by (apply Hseen; by left).
  eapply IH; [done..|].
  intros y Hy [->%elem_of_singleton|Hin]%elem_of_union; [done|].
  by eapply Hseen; [right|].
Qed.

Lemma serialize_parse doc : serialize (parse doc) = doc.
Proof.
  unfold serialize, parse.
  assert (∀ f : nat → nat, (imap (λ i e, (f i, e)) doc).*2 = doc) as H.
  { induction doc as [|e doc IH]; intros f; simpl; [done|].
    f_equal. apply (IH (f ∘ S)). }
  apply (H (λ i, i)).
Qed.

(** On a clean document [remove_duplicates] changes nothing. *)
Lemma remove_duplicates_clean doc : clean doc → remove_duplicates doc = Ok doc.
Proof.
  intros (ids & Hids & Hnd). unfold remove_duplicates.
  rewrite (remove_duplicates_loop_clean _ 0 (parse doc) ∅ ids).
  - simpl. by rewrite serialize_parse.
  - rewrite drop_0. rewrite <- Hids. unfold ids_of.
    rewrite <- (serialize_parse doc) at 2. unfold serialize.
    by rewrite <- list_fmap_compose.
  - done.
  - set_solver.
Qed.

(** On the document of the specification's example the loop does give
    the first occurrences: the record after each removed one is skipped,
    and here the skipped records are not duplicates. *)
Example remove_duplicates_12132 :
  ids_of_result (remove_duplicates (anime_records ["1"; "2"; "1"; "3"; "2"]))
  = Ok [Some "1"; Some "2"; Some "3"]
  ∧ first_occurrences [] (ids_of (anime_records ["1"; "2"; "1"; "3"; "2"]))
    = [Some "1"; Some "2"; Some "3"].
Proof. split; vm_compute; reflexivity. Qed.

(** C1 fails on the code: [root.remove(node)] inside [for node in root]
    moves the next record into the slot that was just visited, so the
    record that follows a removed duplicate is never examined.  With
    three copies of one id the third copy survives. *)
Theorem remove_duplicates_keeps_a_duplicate :
  ids_of_result (remove_duplicates (anime_records ["1"; "1"; "1"]))
  = Ok [Some "1"; Some "1"]
  ∧ first_occurrences [] (ids_of (anime_records ["1"; "1"; "1"])) = [Some "1"].
Proof. split; vm_compute; reflexivity. Qed.

(** ** regenerate_database *)

Lemma download_cached_idemp master path fs :
  download_cached master path (download_cached master path fs)
  = download_cached master path fs.
Proof.
  unfold download_cached. destruct (fs !! path) eqn:H.
  - by rewrite H.
  - by rewrite lookup_insert_eq.
Qed.

Lemma load_cached_clean db fs entry_type :
  (∀ doc, fs !! xml_path entry_type = Some doc → clean doc) →
  (load_cached (Ok db, fs) entry_type).2 = fs.
Proof.
  intros Hclean. unfold load_cached.
  destruct (fs !! xml_path entry_type) as [doc|] eqn:Hdoc; [|done].
  rewrite (remove_duplicates_clean doc) by eauto. simpl.
  by apply insert_id.
Qed.

(** Where the documents hold no duplicate, a second regeneration reads
    the very files the first one read and rebuilds the same table. *)
Lemma regenerate_clean_idempotent master fs :
  (∀ doc, fs !! "anime.xml" = Some doc → clean doc) →
  (∀ doc, fs !! "manga.xml" = Some doc → clean doc) →
  regenerate_database master (regenerate_database master fs).2
  = regenerate_database master fs.
Proof.
  intros Ha Hm.
  assert ((regenerate_database master fs).2 = download_cached master "index.xml" fs) as ->.
  { unfold regenerate_database.
    set (fs1 := download_cached master "index.xml" fs).
    assert (∀ p, p ≠ "index.xml" → fs1 !! p = fs !! p) as Hfs1.
    { intros p Hp. unfold fs1, download_cached.
      destruct (fs !! "index.xml"); [done|]. by rewrite lookup_insert_ne. }
    destruct (insert_entries _ _) as [db|e]; [|done]. cbn [foldl].
    destruct (load_cached (Ok db, fs1) "anime") as [r fs2] eqn:H1.
    assert (fs2 = fs1) as ->.
    { change fs2 with (r, fs2).2. rewrite <- H1. apply load_cached_clean.
      intros doc. change (xml_path "anime") with "anime.xml".
      rewrite Hfs1 by done. apply Ha. }
    destruct r as [db'|e]; [|reflexivity].
    apply load_cached_clean.
    intros doc. change (xml_path "manga") with "manga.xml".
    rewrite Hfs1 by done. apply Hm. }
  unfold regenerate_database. by rewrite download_cached_idemp.
Qed.

(** C6 fails on the code: the first regeneration rewrites [anime.xml]
    with a duplicate of id 2 left in it (the defect of
    [remove_duplicates] above), so id 2 gets the date of the second copy;
    the second regeneration removes that copy, and id 2 gets the date of
    the first one. *)
Theorem regenerate_twice_differs :
  let fs : gmap string (list Element) := {[ "anime.xml" := anime_twice ]} in
  let run1 := regenerate_database master_two fs in
  let run2 := regenerate_database master_two run1.2 in
  dates_of run1.1 = Some [(2, Some "2016-06-01"); (1, Some "2016-05-01")]
  ∧ dates_of run2.1 = Some [(2, Some "2016-05-01"); (1, Some "2016-05-01")]
  ∧ ids_of <$> (run1.2 !! "anime.xml") = Some [Some "1"; Some "2"; Some "2"]
  ∧ ids_of <$> (run2.2 !! "anime.xml") = Some [Some "1"; Some "2"].
Proof. split_and!; vm_compute; reflexivity. Qed.

(** ** The fetch loop: order of effects *)

Lemma download_loop_unfold fuel api entry_type total_id num_entries num_batch
    not_seen local w :
  download_loop (S fuel) api entry_type total_id num_entries num_batch not_seen local w =
  if decide (num_entries > 0) then
    let num_batch := Z.min num_batch num_entries in
    match to_download_of not_seen num_batch (rng w) with
    | Raise e => (Raised e, w)
    | Ok (to_download, g) =>
        let answer := api (calls w) entry_type to_download in
        let w := request entry_type to_download (set_rng g w) in
        match answer with
        | Raise e => (Raised e, w)
        | Ok tree =>
            let children := findall entry_type tree in
            let local := local ++ children in
            let w := write_file (xml_path entry_type) local w in
            let values := entry_to_tuple <$> children in
            let w := run_update values w in
            let not_seen := not_seen ∖ to_download in
            let num_entries := num_entries - num_batch in
            let num_total := Z.of_nat (length total_id) in
            let num_seen := num_total - Z.of_nat (size not_seen) in
            match log_progress num_seen num_total w with
            | Raise e => (Raised e, w)
            | Ok w =>
                download_loop fuel api entry_type total_id num_entries
                  num_batch not_seen local (run_commit w)
            end
        end
    end
  else (Done, w).
Proof. reflexivity. Qed.

Lemma download_loop_rounds fuel api entry_type total_id : ∀ num_entries num_batch
    not_seen local w,
  let run := download_loop fuel api entry_type total_id num_entries num_batch
               not_seen local w in
  ∃ t, trace run.2 = trace w ++ t
       ∧ rounds entry_type local t
       ∧ files run.2 = replay_files (files w) t
       ∧ conn run.2 = replay_conn (conn w) t.
Proof.
  induction fuel as [|fuel IH]; intros N B ns local w; cbv zeta.
  { exists []. split_and!; [by rewrite app_nil_r|constructor|done|done]. }
  rewrite download_loop_unfold.
  destruct (decide (N > 0));
    [|exists []; split_and!; [by rewrite app_nil_r|constructor|done|done]].
  cbv zeta.
  destruct (to_download_of _ _ _) as [[to_download g']|e];
    [|exists []; split_and!; [by rewrite app_nil_r|constructor|done|done]].
  destruct (api _ _ _) as [tree|e].
  2:{ eexists [_]. split_and!; [reflexivity|constructor|done|done]. }
  unfold log_progress. destruct (decide (_ = 0)).
  { eexists [_; _; _].
    split_and!; [simpl; by rewrite <- !app_assoc|constructor|done|done]. }
  match goal with |- context [download_loop fuel _ _ _ ?n ?b ?s ?l ?w'] =>
    destruct (IH n b s l w') as (t & Ht & Hr & Hf & Hc) end.
  rewrite Ht, Hf, Hc.
  eexists (_ :: _ :: _ :: _ :: _ :: t). split_and!.
  - simpl. by rewrite <- !app_assoc.
  - by constructor.
  - done.
  - done.
Qed.

Lemma rounds_update_after_write entry_type local t :
  rounds entry_type local t →
  ∀ i values, t !! i = Some (EvUpdate values) →
    ∃ j doc children,
      i = S j
      ∧ t !! j = Some (EvWrite (xml_path entry_type) (doc ++ children))
      ∧ values = entry_to_tuple <$> children.
Proof.
  induction 1 as [local|local ids|local ids children|local ids children seen total t _ IH]; intros i values Hi.
  - done.
  - by destruct i as [|[|]].
  - destruct i as [|[|[|[|]]]]; simplify_eq/=. by exists 1%nat, local, children.
  - destruct i as [|[|[|[|[|i]]]]]; simplify_eq/=.
    + by exists 1%nat, local, children.
    + destruct (IH _ _ Hi) as (j & doc & ch & -> & Hj & ->).
      by exists (5 + j)%nat, doc, ch.
Qed.

Lemma rounds_commit_after_update entry_type local t :
  rounds entry_type local t →
  ∀ i, t !! i = Some EvCommit →
    ∃ j values seen total,
      i = S (S j)
      ∧ t !! j = Some (EvUpdate values)
      ∧ t !! S j = Some (EvLog seen total).
Proof.
  induction 1 as [local|local ids|local ids children|local ids children seen total t _ IH]; intros i Hi.
  - done.
  - by destruct i as [|[|]].
  - destruct i as [|[|[|[|]]]]; simplify_eq/=.
  - destruct i as [|[|[|[|[|i]]]]]; simplify_eq/=.
    + by exists 2%nat, (entry_to_tuple <$> children), seen, total.
    + destruct (IH _ Hi) as (j & vs & s & n & -> & Hj & Hj').
      by exists (5 + j)%nat, vs, s, n.
Qed.

Lemma persisted_write path doc doc' t :
  persisted path doc (EvWrite path doc' :: t) = persisted path doc' t.
Proof. unfold persisted. simpl. by rewrite decide_True. Qed.

(** Whatever was written is an extension of the tree the round started
    with, and every tuple handed to [update_entries] comes from a record
    of the file as last written. *)
Lemma rounds_persisted entry_type local t :
  rounds entry_type local t →
  ∀ p, p `prefix_of` t →
    local `prefix_of` persisted (xml_path entry_type) local p
    ∧ ∀ v, v ∈ marked p →
        ∃ node, node ∈ persisted (xml_path entry_type) local p
                ∧ entry_to_tuple node = v.
Proof.
  assert (Hnil : ∀ l : list Element,
    l `prefix_of` persisted (xml_path entry_type) l []
    ∧ ∀ v, v ∈ marked [] →
        ∃ node, node ∈ persisted (xml_path entry_type) l [] ∧ entry_to_tuple node = v).
  { intros l. split; [done|]. intros v Hv. by apply elem_of_nil in Hv. }
  assert (Hreq : ∀ (l : list Element) ids,
    l `prefix_of` persisted (xml_path entry_type) l [EvRequest entry_type ids]
    ∧ ∀ v, v ∈ marked [EvRequest entry_type ids] →
        ∃ node, node ∈ persisted (xml_path entry_type) l [EvRequest entry_type ids]
                ∧ entry_to_tuple node = v).
  { intros l ids. split; [done|]. intros v Hv. by apply elem_of_nil in Hv. }
  assert (Hwr : ∀ (l : list Element) ids ch,
    l `prefix_of` persisted (xml_path entry_type) l
        [EvRequest entry_type ids; EvWrite (xml_path entry_type) (l ++ ch)]
    ∧ ∀ v, v ∈ marked [EvRequest entry_type ids; EvWrite (xml_path entry_type) (l ++ ch)] →
        ∃ node, node ∈ persisted (xml_path entry_type) l
                  [EvRequest entry_type ids; EvWrite (xml_path entry_type) (l ++ ch)]
                ∧ entry_to_tuple node = v).
  { intros l ids ch. split.
    - change (persisted _ l (_ :: ?t)) with (persisted (xml_path entry_type) l t).
      rewrite persisted_write. by apply prefix_app_r.
    - intros v Hv. by apply elem_of_nil in Hv. }
  assert (Hup : ∀ (l : list Element) ids ch rest,
    Forall (λ ev, match ev with EvLog _ _ | EvCommit => True | _ => False end) rest →
    l `prefix_of` persisted (xml_path entry_type) l
        (EvRequest entry_type ids :: EvWrite (xml_path entry_type) (l ++ ch)
         :: EvUpdate (entry_to_tuple <$> ch) :: rest)
    ∧ ∀ v, v ∈ marked (EvRequest entry_type ids :: EvWrite (xml_path entry_type) (l ++ ch)
         :: EvUpdate (entry_to_tuple <$> ch) :: rest) →
        ∃ node, node ∈ persisted (xml_path entry_type) l
                  (EvRequest entry_type ids :: EvWrite (xml_path entry_type) (l ++ ch)
                   :: EvUpdate (entry_to_tuple <$> ch) :: rest)
                ∧ entry_to_tuple node = v).
  { intros l ids ch rest Hrest.
    assert (persisted (xml_path entry_type) l
              (EvRequest entry_type ids :: EvWrite (xml_path entry_type) (l ++ ch)
               :: EvUpdate (entry_to_tuple <$> ch) :: rest) = l ++ ch) as ->.
    { change (persisted _ l (_ :: ?t)) with (persisted (xml_path entry_type) l t).
      rewrite persisted_write.
      change (persisted _ ?d (_ :: ?t)) with (persisted (xml_path entry_type) d t).
      induction Hrest as [|ev rest Hev _ IH]; [done|]. by destruct ev. }
    assert (marked (EvRequest entry_type ids :: EvWrite (xml_path entry_type) (l ++ ch)
               :: EvUpdate (entry_to_tuple <$> ch) :: rest) = entry_to_tuple <$> ch) as ->.
    { unfold marked. simpl.
      induction Hrest as [|ev rest Hev _ IH]; simpl; [by rewrite app_nil_r|].
      by destruct ev. }
    split; [by apply prefix_app_r|].
    intros v (node & -> & Hn)%list_elem_of_fmap. exists node. split; [|done].
    apply elem_of_app. by right. }
  induction 1 as [local|local ids|local ids children|local ids children seen total t _ IH]; intros p Hp.
  - apply prefix_nil_inv in Hp as ->. apply Hnil.
  - peel p Hp; [apply Hnil|]. apply prefix_nil_inv in Hp as ->. apply Hreq.
  - peel p Hp; [apply Hnil|]. peel p Hp; [apply Hreq|]. peel p Hp; [apply Hwr|].
    apply prefix_nil_inv in Hp as ->. by apply Hup.
  - peel p Hp; [apply Hnil|]. peel p Hp; [apply Hreq|]. peel p Hp; [apply Hwr|].
    peel p Hp; [by apply Hup|]. peel p Hp; [apply Hup; by repeat constructor|].
    destruct (IH _ Hp) as [Hpre Hmark].
    assert (persisted (xml_path entry_type) local
              (EvRequest entry_type ids :: EvWrite (xml_path entry_type) (local ++ children)
               :: EvUpdate (entry_to_tuple <$> children) :: EvLog seen total :: EvCommit
               :: p)
            = persisted (xml_path entry_type) (local ++ children) p) as ->.
    { change (persisted _ local (_ :: ?t)) with (persisted (xml_path entry_type) local t).
      by rewrite persisted_write. }
    split.
    + etrans; [|exact Hpre]. by apply prefix_app_r.
    + intros v Hv.
      change (v ∈ (entry_to_tuple <$> children) ++ marked p) in Hv.
      apply elem_of_app in Hv as [(node & -> & Hn)%list_elem_of_fmap|Hv].
      * exists node. split; [|done].
        destruct Hpre as [k ->]. apply elem_of_app. left.
        apply elem_of_app. by right.
      * by apply Hmark.
Qed.

(** One round on [one_anime]: request, write, update, message, commit. *)
Example download_entries_one_round :
  trace (download_entries 5 api_one world_one "anime" 1 50).2
  = [EvRequest "anime" {[ 1 ]};
     EvWrite "anime.xml" [record "anime" "1" (Some "2016-05-01")];
     EvUpdate [(Some "2016-05-01", Some "1")];
     EvLog 1 1;
     EvCommit].
Proof. vm_compute. reflexivity. Qed.

Lemma marked_app t1 t2 : marked (t1 ++ t2) = marked t1 ++ marked t2.
Proof. unfold marked. by rewrite bind_app. Qed.

Lemma replay_files_persisted path (t : list event) : ∀ fs,
  default [] (replay_files fs t !! path) = persisted path (default [] (fs !! path)) t.
Proof.
  induction t as [|ev t IH]; intros fs; [done|].
  unfold replay_files, persisted in *. cbn [foldl]. rewrite IH.
  destruct ev as [| p d | | |]; try done.
  destruct (decide (p = path)) as [->|Hne].
  - by rewrite lookup_insert_eq.
  - by rewrite lookup_insert_ne.
Qed.

Lemma replay_conn_snoc c t ev :
  replay_conn c (t ++ [ev]) =
  match ev with
  | EvUpdate values =>
      mkConn (committed (replay_conn c t))
             (update_entries (working (replay_conn c t)) values)
  | EvCommit => commit (replay_conn c t)
  | _ => replay_conn c t
  end.
Proof. unfold replay_conn. by rewrite foldl_app. Qed.

Lemma replay_conn_working (t : list event) : ∀ c,
  working (replay_conn c t) = update_entries (working c) (marked t).
Proof.
  induction t as [|ev t IH] using rev_ind; intros c; [done|].
  rewrite replay_conn_snoc, marked_app. unfold update_entries.
  rewrite foldl_app. fold (update_entries (working c) (marked t)).
  rewrite <- IH. destruct ev; simpl; try done.
  by rewrite app_nil_r.
Qed.

(** The database file holds what the transaction had reached at the last
    commit. *)
Lemma replay_conn_committed (t : list event) : ∀ c,
  committed (replay_conn c t) = committed c
  ∨ ∃ q, q `prefix_of` t
         ∧ committed (replay_conn c t) = update_entries (working c) (marked q).
Proof.
  induction t as [|ev t IH] using rev_ind; intros c; [by left|].
  rewrite replay_conn_snoc.
  assert (committed (replay_conn c t) = committed c
          ∨ ∃ q, q `prefix_of` t ++ [ev]
                 ∧ committed (replay_conn c t)
                   = update_entries (working c) (marked q)) as Hkeep.
  { destruct (IH c) as [?|(q & Hq & ?)]; [by left|right].
    exists q. split; [|done]. by apply prefix_app_r. }
  destruct ev; try done.
  right. exists t. split; [by apply prefix_app_r|].
  simpl. apply replay_conn_working.
Qed.

(** A row that [update_entries] changed was named by one of the tuples. *)
Lemma update_entries_changed (values : list (option string * option string)) :
  ∀ (db : gmap Z Row) k,
  update_entries db values !! k ≠ db !! k →
  ∃ v, v ∈ values ∧ v.2 ≫= sql_integer = Some k.
Proof.
  unfold update_entries.
  induction values as [|v values IH]; intros db k Hk; [done|].
  simpl in Hk.
  destruct (decide (v.2 ≫= sql_integer = Some k)) as [Hv|Hv].
  - exists v. split; [by left|done].
  - assert (update_entry db v !! k = db !! k) as Hsame.
    { unfold update_entry. destruct (v.2 ≫= sql_integer) as [k'|]; [|done].
      apply lookup_alter_ne. congruence. }
    rewrite <- Hsame in Hk. destruct (IH _ _ Hk) as (v' & Hv' & Hk').
    exists v'. split; [by right|done].
Qed.

(** C7: in every run of [download_entries], whatever its outcome, each
    [update_entries] on the index comes directly after the write of the
    document that ends with the very records being marked, and each
    commit comes after that update (the progress message in between).
    Hence, wherever the run is cut, every tuple that has reached the
    index belongs to a record of the document as it is on disk at that
    point, and every row of the database file that differs from the row
    the run started with is the row of a record in that document: the
    index can lag behind the document, never run ahead of it. *)
Theorem document_persisted_before_index (fuel : nat) (api : Api) (w : World)
    (entry_type : string) (num_entries num_batch : Z) :
  let run := download_entries fuel api w entry_type num_entries num_batch in
  let path := xml_path entry_type in
  ∃ t, trace run.2 = trace w ++ t
    ∧ files run.2 = replay_files (files w) t
    ∧ conn run.2 = replay_conn (conn w) t
    ∧ (∀ i values, t !! i = Some (EvUpdate values) →
         ∃ j doc children,
           i = S j ∧ t !! j = Some (EvWrite path (doc ++ children))
           ∧ values = entry_to_tuple <$> children)
    ∧ (∀ i, t !! i = Some EvCommit →
         ∃ j values seen total,
           i = S (S j) ∧ t !! j = Some (EvUpdate values)
           ∧ t !! S j = Some (EvLog seen total))
    ∧ (∀ p, p `prefix_of` t →
         let on_disk := default [] (replay_files (files w) p !! path) in
         (∀ v, v ∈ marked p →
            ∃ node, node ∈ on_disk ∧ entry_to_tuple node = v)
         ∧ (committed (replay_conn (conn w) p) = committed (conn w)
            ∨ ∀ k, committed (replay_conn (conn w) p) !! k ≠ working (conn w) !! k →
                ∃ node, node ∈ on_disk
                        ∧ (entry_to_tuple node).2 ≫= sql_integer = Some k)).
Proof.
  intros run path. unfold run, download_entries.
  edestruct download_loop_rounds as (t & Ht & Hr & Hf & Hc). exists t.
  split_and!; [exact Ht|exact Hf|exact Hc| | |].
  - by apply (rounds_update_after_write _ _ _ Hr).
  - by apply (rounds_commit_after_update _ _ _ Hr).
  - intros p Hp. set (on_disk := default [] (replay_files (files w) p !! path)).
    assert (∀ v, v ∈ marked p → ∃ node, node ∈ on_disk ∧ entry_to_tuple node = v)
      as Hmarked.
    { unfold on_disk. rewrite replay_files_persisted.
      by apply (rounds_persisted _ _ _ Hr). }
    split; [done|].
    destruct (replay_conn_committed p (conn w)) as [?|(q & [q' ->] & Hq)]; [by left|].
    right. intros k Hk. rewrite Hq in Hk.
    destruct (update_entries_changed _ _ _ Hk) as (v & Hv & Hvk).
    destruct (Hmarked v) as (node & Hn & <-); [|by exists node].
    rewrite marked_app. apply elem_of_app. by left.
Qed.

(** ** The fetch loop: termination *)

Lemma rounds_needed_step n b :
  n > 0 → 0 < b →
  rounds_needed n b
  = S (rounds_needed (n - Z.min b n) (Z.min b n)).
Proof.
  intros Hn Hb. unfold rounds_needed. rewrite decide_True by done.
  destruct (Z.le_gt_cases b n) as [Hle|Hgt].
  - rewrite Z.min_l by done.
    replace (n + b - 1) with ((n - 1) + 1 * b) by lia.
    rewrite Z.div_add by lia.
    destruct (decide (n - b > 0)).
    + replace (n - b + b - 1) with (n - 1) by lia.
      assert (0 ≤ (n - 1) / b) by (apply Z.div_pos; lia). lia.
    + rewrite Z.div_small by lia. done.
  - rewrite Z.min_r by lia.
    rewrite decide_False by lia.
    replace (n + b - 1) with ((n - 1) + 1 * b) by lia.
    rewrite Z.div_add by lia. rewrite Z.div_small by lia. done.
Qed.

Lemma requested_app t1 t2 : requested (t1 ++ t2) = requested t1 ++ requested t2.
Proof. unfold requested. by rewrite bind_app. Qed.

Section loop.
Context (api : Api) (entry_type : string) (total_id : list Z).

Lemma download_loop_terminates (fuel : nat) : ∀ num_entries num_batch
    not_seen local w,
  0 < num_batch → (Z.to_nat num_entries < fuel)%nat →
  let run := download_loop fuel api entry_type total_id num_entries num_batch
               not_seen local w in
  run.1 ≠ OutOfFuel
  ∧ (run.1 = Done →
     ∃ t, trace run.2 = trace w ++ t
          ∧ length (requested t) = rounds_needed num_entries num_batch).
Proof.
  induction fuel as [|fuel IH]; intros N B ns local w HB Hfuel; [lia|].
  cbv zeta. rewrite download_loop_unfold.
  destruct (decide (N > 0)) as [HN|HN].
  2:{ split; [done|]. intros _. exists []. rewrite app_nil_r.
      unfold rounds_needed. by rewrite decide_False. }
  cbv zeta.
  destruct (to_download_of _ _ _) as [[to_download g']|e]; [|done].
  destruct (api _ _ _) as [tree|e]; [|done].
  unfold log_progress. destruct (decide (_ = 0)); [done|].
  match goal with |- context [download_loop fuel _ _ _ ?n ?b ?s ?l ?w'] =>
    destruct (IH n b s l w' ltac:(lia) ltac:(lia)) as [Hne Hdone] end.
  split; [done|]. intros Hd. destruct (Hdone Hd) as (t & Ht & Hlen).
  rewrite Ht. eexists (_ :: _ :: _ :: _ :: _ :: t). split.
  - simpl. by rewrite <- !app_assoc.
  - rewrite (rounds_needed_step N B) by done.
    change (requested (?a :: ?b :: ?c :: ?d :: ?e :: t)) with
      (requested [a; b; c; d; e] ++ requested t).
    simpl. by rewrite Hlen.
Qed.

(** Once the loop has an outcome, more fuel gives the same run. *)
Lemma download_loop_more_fuel (fuel : nat) : ∀ fuel' num_entries num_batch
    not_seen local w,
  (download_loop fuel api entry_type total_id num_entries num_batch
     not_seen local w).1 ≠ OutOfFuel →
  (fuel ≤ fuel')%nat →
  download_loop fuel' api entry_type total_id num_entries num_batch not_seen local w
  = download_loop fuel api entry_type total_id num_entries num_batch not_seen local w.
Proof.
  induction fuel as [|fuel IH]; intros fuel' N B ns local w Hout Hle; [done|].
  destruct fuel' as [|fuel']; [lia|].
  rewrite !download_loop_unfold in *.
  destruct (decide (N > 0)); [|done]. cbv zeta in *.
  destruct (to_download_of _ _ _) as [[to_download g']|e]; [|done].
  destruct (api _ _ _) as [tree|e]; [|done].
  destruct (log_progress _ _ _) as [w'|e]; [|done].
  apply IH; [done|lia].
Qed.

(** With a catalogue that answers every request and a kind that has
    entries, nothing in the loop raises. *)
Lemma download_loop_done (fuel : nat) : ∀ num_entries num_batch
    not_seen local w,
  (∀ n k ids, ∃ tree, api n k ids = Ok tree) →
  total_id ≠ [] →
  0 < num_batch → (Z.to_nat num_entries < fuel)%nat →
  (download_loop fuel api entry_type total_id num_entries num_batch
     not_seen local w).1 = Done.
Proof.
  intros N B ns local w Hapi Htot. revert N B ns local w.
  induction fuel as [|fuel IH]; intros N B ns local w HB Hfuel; [lia|].
  rewrite download_loop_unfold.
  destruct (decide (N > 0)) as [HN|HN]; [|done].
  cbv zeta.
  destruct (to_download_of_spec ns (Z.min B N) (rng w) ltac:(lia))
    as (td & g' & -> & _).
  destruct (Hapi (calls w) entry_type td) as [tree ->].
  unfold log_progress. rewrite decide_False.
  2:{ destruct total_id; [done|]. simpl. lia. }
  apply IH; lia.
Qed.
End loop.

(** C8, as stated, fails in its second half: when the unseen set runs
    out before the count does, nothing stops the loop and nothing is
    signalled.  With one unfetched id, a count of 3 and batches of 1, the
    run requests id 1, then requests the empty set twice, and ends
    normally. *)
Lemma loop_goes_on_when_exhausted :
  let run := download_entries 10 api_one world_one "anime" 3 1 in
  not_seen_of (working (conn world_one)) "anime" = {[ 1 ]}
  ∧ run.1 = Done
  ∧ requested (trace run.2) = [{[ 1 ]}; ∅; ∅]
  ∧ not_seen_of (working (conn run.2)) "anime" = ∅.
Proof. split_and!; vm_compute; reflexivity. Qed.

(** C8 (amended): for every count and every batch size above 0 the loop
    terminates: fuel beyond the count always gives an outcome, which is
    [Done] or the first exception raised.  A run that ends with [Done]
    has made exactly the ceiling of count / batch size requests, whether
    or not the unseen set ran out on the way, and with a catalogue that
    answers every request and a kind that has entries the run does end
    with [Done]. *)
Theorem fetch_loop_terminates (fuel : nat) (api : Api) (w : World)
    (entry_type : string) (num_entries num_batch : Z) :
  0 < num_batch →
  (Z.to_nat (effective_count w entry_type num_entries) < fuel)%nat →
  let run := download_entries fuel api w entry_type num_entries num_batch in
  run.1 ≠ OutOfFuel
  ∧ (run.1 = Done →
     ∃ t, trace run.2 = trace w ++ t
          ∧ length (requested t)
            = rounds_needed (effective_count w entry_type num_entries) num_batch)
  ∧ ((∀ n k ids, ∃ tree, api n k ids = Ok tree) →
     total_id (working (conn w)) entry_type ≠ [] →
     run.1 = Done).
Proof.
  intros HB Hfuel run. unfold run, download_entries, effective_count in *.
  split_and!.
  - by apply download_loop_terminates.
  - by apply download_loop_terminates.
  - intros Hapi Htot. by apply download_loop_done.
Qed.

Lemma fetch_loop_terminates_witness :
  let run := download_entries 10 api_one world_one "anime" 3 1 in
  run.1 ≠ OutOfFuel
  ∧ (run.1 = Done →
     ∃ t, trace run.2 = trace world_one ++ t
          ∧ length (requested t)
            = rounds_needed (effective_count world_one "anime" 3) 1)
  ∧ ((∀ n k ids, ∃ tree, api_one n k ids = Ok tree) →
     total_id (working (conn world_one)) "anime" ≠ [] →
     run.1 = Done).
Proof.
  apply (fetch_loop_terminates 10 api_one world_one "anime" 3 1).
  - lia.
  - vm_compute. lia.
Defined.

(** ** The fetch loop: a negative count *)

Lemma download_loop_fetches_all (api : Api) (entry_type : string)
    (total_id : list Z) (fuel : nat) : ∀ num_batch not_seen local w,
  (∀ n k ids, ∃ tree, api n k ids = Ok tree) →
  0 < num_batch →
  (size not_seen ≤ length total_id)%nat →
  (size not_seen < fuel)%nat →
  let run := download_loop fuel api entry_type total_id
               (Z.of_nat (size not_seen)) num_batch not_seen local w in
  run.1 = Done
  ∧ ∃ t, trace run.2 = trace w ++ t
         ∧ ⋃ requested t = not_seen
         ∧ sum_list_with size (requested t) = size not_seen.
Proof.
  intros B ns local w Hapi. revert B ns local w.
  induction fuel as [|fuel IH]; intros B ns local w HB Htot Hfuel; [lia|].
  cbv zeta. rewrite download_loop_unfold.
  destruct (decide (Z.of_nat (size ns) > 0)) as [HN|HN].
  2:{ split; [done|]. exists []. rewrite app_nil_r. split; [done|].
      assert (size ns = 0%nat) as H0 by lia.
      apply size_empty_inv in H0. apply leibniz_equiv in H0. subst ns.
      split; [done|]. by rewrite size_empty. }
  cbv zeta.
  assert (0 < Z.min B (Z.of_nat (size ns))) as Hmin by lia.
  destruct (to_download_of_spec ns (Z.min B (Z.of_nat (size ns))) (rng w) Hmin)
    as (td & g' & -> & Hsub & Hsize & _).
  destruct (Hapi (calls w) entry_type td) as [tree ->].
  unfold log_progress. rewrite decide_False by lia.
  assert (size (ns ∖ td) = (size ns - size td)%nat) as Hdiff
    by (by apply size_difference).
  replace (Z.of_nat (size ns) - Z.min B (Z.of_nat (size ns)))
    with (Z.of_nat (size (ns ∖ td))) by lia.
  match goal with |- context [download_loop fuel _ _ _ _ ?b ?s ?l ?w'] =>
    destruct (IH b s l w' ltac:(lia) ltac:(lia) ltac:(lia))
      as (Hdone & t & Ht & Hunion & Hsum) end.
  split; [done|]. rewrite Ht.
  eexists (_ :: _ :: _ :: _ :: _ :: t). split_and!.
  - simpl. by rewrite <- !app_assoc.
  - change (requested (?a :: ?b :: ?c :: ?d :: ?e :: t)) with
      (requested [a; b; c; d; e] ++ requested t).
    simpl. rewrite Hunion. symmetry. by apply union_difference_L.
  - change (requested (?a :: ?b :: ?c :: ?d :: ?e :: t)) with
      (requested [a; b; c; d; e] ++ requested t).
    rewrite sum_list_with_app, Hsum. simpl. lia.
Qed.

(** C9: with a negative count [download_entries] runs exactly as with
    the number of unfetched ids of the kind as count.  With batches of
    size above 0 and a catalogue that answers every request, that run
    ends normally, and its requests, taken together, are the unfetched
    ids of the kind: every one of them, each in one request only, and no
    other id. *)
Theorem negative_count_fetches_all (fuel : nat) (api : Api) (w : World)
    (entry_type : string) (num_entries num_batch : Z) :
  num_entries < 0 →
  0 < num_batch →
  (∀ n k ids, ∃ tree, api n k ids = Ok tree) →
  (size (not_seen_of (working (conn w)) entry_type) < fuel)%nat →
  let not_seen := not_seen_of (working (conn w)) entry_type in
  let run := download_entries fuel api w entry_type num_entries num_batch in
  run = download_entries fuel api w entry_type (Z.of_nat (size not_seen)) num_batch
  ∧ run.1 = Done
  ∧ ∃ t, trace run.2 = trace w ++ t
         ∧ ⋃ requested t = not_seen
         ∧ sum_list_with size (requested t) = size not_seen.
Proof.
  intros HN HB Hapi Hfuel not_seen run.
  assert (run = download_entries fuel api w entry_type
                  (Z.of_nat (size not_seen)) num_batch) as Heq.
  { unfold run, download_entries. rewrite decide_True by done.
    rewrite decide_False by lia. done. }
  split; [done|]. rewrite Heq. unfold download_entries.
  rewrite decide_False by lia.
  apply download_loop_fetches_all; [done..| |done].
  apply size_not_seen_le_total.
Qed.

Lemma negative_count_fetches_all_witness :
  let not_seen := not_seen_of (working (conn world_three)) "anime" in
  let run := download_entries 5 api_one world_three "anime" (-1) 1 in
  run = download_entries 5 api_one world_three "anime" (Z.of_nat (size not_seen)) 1
  ∧ run.1 = Done
  ∧ ∃ t, trace run.2 = trace world_three ++ t
         ∧ ⋃ requested t = not_seen
         ∧ sum_list_with size (requested t) = size not_seen.
Proof.
  apply (negative_count_fetches_all 5 api_one world_three "anime" (-1) 1).
  - lia.
  - lia.
  - intros n k ids. eexists. reflexivity.
  - vm_compute. lia.
Defined.

Example negative_count_requests :
  requested (trace (download_entries 5 api_one world_three "anime" (-1) 1).2)
  = [{[ 2 ]}; {[ 3 ]}].
Proof. vm_compute. reflexivity. Qed.

(** ** The fetch loop: an empty bucket *)

(** C10: on a store without any entry of the requested kind, a positive
    count (and a batch size that is not negative) makes the first round
    request the empty set; once the catalogue has answered, the document
    is written and the index updated, and the progress message divides
    by the zero total: the run ends with [ZeroDivisionError], before the
    commit. *)
Theorem empty_bucket_divides_by_zero (fuel : nat) (api : Api) (w : World)
    (entry_type : string) (num_entries num_batch : Z) (tree : list Element) :
  total_id (working (conn w)) entry_type = [] →
  0 < num_entries →
  0 ≤ num_batch →
  api (calls w) entry_type ∅ = Ok tree →
  let run := download_entries (S fuel) api w entry_type num_entries num_batch in
  let local := default [] (files w !! xml_path entry_type) in
  let children := findall entry_type tree in
  run.1 = Raised ZeroDivisionError
  ∧ trace run.2 = trace w ++ [EvRequest entry_type ∅;
                               EvWrite (xml_path entry_type) (local ++ children);
                               EvUpdate (entry_to_tuple <$> children)]
  ∧ committed (conn run.2) = committed (conn w).
Proof.
  intros Htot HN HB Hapi run local children.
  unfold run, download_entries. rewrite decide_False by lia.
  assert (not_seen_of (working (conn w)) entry_type = ∅) as ->.
  { unfold not_seen_of. rewrite Htot. set_solver. }
  rewrite Htot. rewrite download_loop_unfold. rewrite decide_True by lia.
  cbv zeta. unfold to_download_of. rewrite size_empty.
  rewrite decide_True by lia. simpl. rewrite Hapi.
  split_and!; [done| |done].
  simpl. by rewrite <- !app_assoc.
Qed.

Lemma empty_bucket_divides_by_zero_witness :
  let run := download_entries 1 api_nothing world_empty "manga" 50 50 in
  let local := default [] (files world_empty !! xml_path "manga") in
  let children := findall "manga" [] in
  run.1 = Raised ZeroDivisionError
  ∧ trace run.2 = trace world_empty ++ [EvRequest "manga" ∅;
                               EvWrite (xml_path "manga") (local ++ children);
                               EvUpdate (entry_to_tuple <$> children)]
  ∧ committed (conn run.2) = committed (conn world_empty).
Proof.
  apply (empty_bucket_divides_by_zero 0 api_nothing world_empty "manga" 50 50 []).
  - reflexivity.
  - lia.
  - lia.
  - reflexivity.
Defined.

(** ** Further properties: remove_duplicates *)

Lemma remove_duplicates_loop_sound (fuel : nat) : ∀ i (root root' : list Node) seen_ids,
  NoDup root.*1 →
  (∀ x, x ∈ seen_ids → Some x ∈ node_id <$> take i root) →
  remove_duplicates_loop fuel i root seen_ids = Ok root' →
  root' `sublist_of` root
  ∧ (∀ o, o ∈ node_id <$> root ↔ o ∈ node_id <$> root')
  ∧ take i root' = take i root.
Proof.
  induction fuel as [|fuel IH]; intros i root root' seen Hnd Hseen Hrun.
  { simpl in Hrun. by simplify_eq. }
  assert (∀ l : list Node, take i l = take i (take (S i) l)) as Hshort.
  { intros l. rewrite take_take. f_equal. lia. }
  rewrite remove_duplicates_loop_unfold in Hrun.
  destruct (root !! i) as [node|] eqn:Hi; [|by simplify_eq].
  destruct (attrib node.2 !! "id") as [e|] eqn:He; [|done].
  destruct (decide (e ∈ seen)) as [Hin|Hnin].
  - rewrite (remove_is_delete root i node Hnd Hi) in Hrun.
    pose proof (lookup_lt_Some _ _ _ Hi) as Hlt.
    assert (take i (delete i root) = take i root) as Htake.
    { rewrite delete_take_drop. rewrite take_app_le by (rewrite length_take; lia).
      rewrite take_take. f_equal. lia. }
    apply IH in Hrun as (Hsub & Hids & Hpre).
    + split_and!.
      * etrans; [exact Hsub|apply sublist_delete].
      * intros o. rewrite <- Hids. split.
        -- intros Ho. rewrite delete_take_drop, fmap_app, elem_of_app.
           rewrite <- (take_drop_middle _ _ _ Hi), fmap_app, elem_of_app in Ho.
           destruct Ho as [Ho|Ho]; [by left|].
           rewrite fmap_cons in Ho. apply elem_of_cons in Ho as [->|Ho]; [|by right].
           left. unfold node_id at 1. rewrite He. by apply Hseen.
        -- intros Ho. eapply sublist_subseteq; [|exact Ho].
           apply fmap_sublist, sublist_delete.
      * rewrite <- Htake. by rewrite (Hshort root'), (Hshort (delete i root)), Hpre.
    + rewrite <- (remove_is_delete root i node Hnd Hi). by apply remove_identities.
    + intros x Hx. assert (x ∈ seen) as Hx' by set_solver.
      specialize (Hseen x Hx').
      eapply sublist_subseteq; [|exact Hseen].
      apply fmap_sublist. rewrite <- Htake, (Hshort (delete i root)).
      apply sublist_take.
  - apply IH in Hrun as (Hsub & Hids & Hpre); [|done|].
    + split_and!; [done|done|].
      by rewrite (Hshort root'), (Hshort root), Hpre.
    + intros x Hx. rewrite (take_S_r _ _ _ Hi), fmap_app, elem_of_app.
      apply elem_of_union in Hx as [->%elem_of_singleton|Hx].
      * right. simpl. unfold node_id. rewrite He. by left.
      * left. by apply Hseen.
Qed.

Lemma ids_of_serialize (root : list Node) : ids_of (serialize root) = node_id <$> root.
Proof. unfold ids_of, serialize. by rewrite <- list_fmap_compose. Qed.

Lemma parse_NoDup doc : NoDup (parse doc).*1.
Proof. rewrite parse_identities. apply NoDup_seq. Qed.

(** X1: on a document in which every record has an id and no id occurs
    twice, [remove_duplicates] rewrites the file with the same content. *)
Theorem remove_duplicates_noop (doc : list Element) :
  clean doc → remove_duplicates doc = Ok doc.
Proof. apply remove_duplicates_clean. Qed.

Lemma remove_duplicates_noop_witness :
  remove_duplicates (anime_records ["1"; "2"; "3"]) = Ok (anime_records ["1"; "2"; "3"]).
Proof.
  apply (remove_duplicates_noop (anime_records ["1"; "2"; "3"])).
  exists ["1"; "2"; "3"]. split; [reflexivity|].
  repeat (constructor; [set_solver|]). constructor.
Defined.

(** X2: when [remove_duplicates] succeeds it only drops records: what
    it writes is a subsequence of what it read, the first record stays
    first, and every id of the input still occurs in the output. *)
Theorem remove_duplicates_only_drops (doc doc' : list Element) :
  remove_duplicates doc = Ok doc' →
  doc' `sublist_of` doc
  ∧ head doc' = head doc
  ∧ ∀ o, o ∈ ids_of doc' ↔ o ∈ ids_of doc.
Proof.
  unfold remove_duplicates. intros Hrun.
  destruct (remove_duplicates_loop _ _ _ _) as [root'|e] eqn:Hloop; [|done].
  simpl in Hrun. simplify_eq.
  assert (root' `sublist_of` parse doc
          ∧ (∀ o, o ∈ node_id <$> parse doc ↔ o ∈ node_id <$> root')
          ∧ take 1 root' = take 1 (parse doc)) as (Hsub & Hids & Hhead).
  { rewrite remove_duplicates_loop_unfold in Hloop.
    destruct (parse doc !! 0%nat) as [node|] eqn:H0.
    - destruct (attrib node.2 !! "id") as [e|] eqn:He; [|done].
      rewrite decide_False in Hloop by set_solver.
      eapply remove_duplicates_loop_sound; [apply parse_NoDup| |exact Hloop].
      intros x Hx. assert (x = e) as -> by set_solver.
      rewrite (take_S_r _ 0 _ H0). simpl. unfold node_id. rewrite He. by left.
    - simplify_eq. done. }
  pose proof (serialize_parse doc) as Hsp.
  split_and!.
  - rewrite <- Hsp. by apply fmap_sublist.
  - rewrite <- Hsp. unfold serialize.
    destruct root' as [|a ?], (parse doc) as [|b ?]; simpl in *; by simplify_eq.
  - intros o. rewrite <- Hsp, !ids_of_serialize. symmetry. apply Hids.
Qed.

Lemma remove_duplicates_only_drops_witness :
  let doc := anime_twice in
  let doc' := [record "anime" "1" (Some "2016-05-01"); record "anime" "2" (Some "2016-05-01");
               record "anime" "2" (Some "2016-06-01")] in
  doc' `sublist_of` doc
  ∧ head doc' = head doc
  ∧ ∀ o, o ∈ ids_of doc' ↔ o ∈ ids_of doc.
Proof.
  intros doc doc'. apply (remove_duplicates_only_drops doc doc').
  vm_compute. reflexivity.
Defined.

Lemma remove_duplicates_loop_missing_id (ids : list string) :
  ∀ fuel i (root : list Node) seen_ids rest,
  (length ids < fuel)%nat →
  node_id <$> drop i root = (Some <$> ids) ++ None :: rest →
  NoDup ids → (∀ x, x ∈ ids → x ∉ seen_ids) →
  remove_duplicates_loop fuel i root seen_ids = Raise KeyError.
Proof.
  induction ids as [|a ids IH]; intros fuel i root seen rest Hfuel Hids Hnd Hseen;
    (destruct fuel as [|fuel]; [simpl in Hfuel; lia|]);
    rewrite remove_duplicates_loop_unfold;
    (destruct (root !! i) as [node|] eqn:Hi;
      [|apply lookup_ge_None_1 in Hi; by rewrite drop_ge in Hids by done]);
    rewrite (drop_S _ _ _ Hi) in Hids; simpl in Hids; simplify_eq.
  - unfold node_id in *. by match goal with H : _ = None |- _ => rewrite H end.
  - unfold node_id in *.
    match goal with H : attrib _ !! _ = Some _ |- _ => rewrite H end.
    apply NoDup_cons in Hnd as [Ha Hnd].
    rewrite decide_False by (apply Hseen; by left).
    eapply IH; [simpl in Hfuel; lia|done|done|].
    intros y Hy [->%elem_of_singleton|Hin]%elem_of_union; [done|].
    by eapply Hseen; [right|].
Qed.

(** X3: a record without an [id] attribute that comes after records with
    distinct ids makes [remove_duplicates] raise [KeyError]; nothing is
    written then. *)
Theorem remove_duplicates_missing_id (pre post : list Element) (x : Element) :
  clean pre → attrib x !! "id" = None →
  remove_duplicates (pre ++ x :: post) = Raise KeyError.
Proof.
  intros (ids & Hids & Hnd) Hx. unfold remove_duplicates.
  rewrite (remove_duplicates_loop_missing_id ids _ 0 _ ∅ (ids_of post)); [done| | |done|set_solver].
  - rewrite length_app. simpl.
    assert (length ids = length pre) as ->; [|lia].
    unfold ids_of in Hids. by rewrite <- (length_fmap Some ids), <- Hids, length_fmap.
  - rewrite drop_0, <- ids_of_serialize, serialize_parse.
    unfold ids_of in *. rewrite fmap_app, fmap_cons. by rewrite Hids, Hx.
Qed.

Lemma remove_duplicates_missing_id_witness :
  remove_duplicates (anime_records ["1"; "2"] ++ mkElement "anime" ∅ None []
                       :: anime_records ["1"])
  = Raise KeyError.
Proof.
  apply (remove_duplicates_missing_id (anime_records ["1"; "2"]) (anime_records ["1"])
           (mkElement "anime" ∅ None [])).
  - exists ["1"; "2"]. split; [reflexivity|].
    repeat (constructor; [set_solver|]). constructor.
  - reflexivity.
Defined.

(** ** Further properties: the table *)

Lemma update_entry_lookup db v k :
  update_entry db v !! k =
  if decide (v.2 ≫= sql_integer = Some k)
  then set_generated_on v.1 <$> db !! k else db !! k.
Proof.
  unfold update_entry. destruct (v.2 ≫= sql_integer) as [k'|] eqn:Hv.
  - destruct (decide (Some k' = Some k)) as [[= ->]|Hne].
    + by rewrite lookup_alter_eq.
    + rewrite lookup_alter_ne; [done|congruence].
  - by rewrite decide_False.
Qed.

Lemma same_entry_refl r : same_entry r r.
Proof. by destruct r. Qed.

Lemma same_entry_trans r1 r2 r3 : same_entry r1 r2 → same_entry r2 r3 → same_entry r1 r3.
Proof. unfold same_entry. destruct r1, r2, r3; simpl. intros [=] [=]. by subst. Qed.

Lemma same_entry_type r r' : same_entry r r' → row_type r' = row_type r.
Proof. unfold same_entry. intros ->. done. Qed.

Lemma update_entries_lookup (values : list (option string * option string)) :
  ∀ (db : gmap Z Row) k,
  match update_entries db values !! k with
  | Some r' => ∃ r, db !! k = Some r ∧ same_entry r r'
  | None => db !! k = None
  end.
Proof.
  unfold update_entries.
  induction values as [|v values IH]; intros db k; simpl.
  { destruct (db !! k) as [r|] eqn:Hr; [|done]. exists r. split; [done|apply same_entry_refl]. }
  specialize (IH (update_entry db v) k).
  destruct (foldl update_entry (update_entry db v) values !! k) as [r'|].
  - destruct IH as (r1 & Hr1 & Hs). rewrite update_entry_lookup in Hr1.
    destruct (decide _); [|by exists r1].
    destruct (db !! k) as [r|]; [|done]. simpl in Hr1. simplify_eq.
    exists r. split; [done|]. eapply same_entry_trans; [|exact Hs]. done.
  - rewrite update_entry_lookup in IH. destruct (decide _); [|done].
    by destruct (db !! k).
Qed.

Lemma update_entries_total_id db values entry_type k :
  k ∈ total_id (update_entries db values) entry_type ↔ k ∈ total_id db entry_type.
Proof.
  unfold total_id. rewrite !elem_of_select_id.
  pose proof (update_entries_lookup values db k) as H.
  assert (∀ r r', same_entry r r' → where_type entry_type r' = where_type entry_type r) as Hw.
  { intros r r' Hs. unfold where_type, type_in_manga. by rewrite (same_entry_type _ _ Hs). }
  split.
  - intros (r' & Hr' & Hc). rewrite Hr' in H. destruct H as (r & Hr & Hs).
    exists r. split; [done|]. by rewrite <- (Hw _ _ Hs).
  - intros (r & Hr & Hc). destruct (update_entries db values !! k) as [r'|].
    + destruct H as (r0 & Hr0 & Hs). simplify_eq. exists r'. split; [done|].
      by rewrite (Hw _ _ Hs).
    + congruence.
Qed.

Lemma progress_total_update db values entry_type :
  (progress (update_entries db values) entry_type).2 = (progress db entry_type).2.
Proof.
  unfold progress. simpl. rewrite !select_count_length. f_equal.
  fold (total_id (update_entries db values) entry_type).
  fold (total_id db entry_type).
  rewrite <- !(size_list_to_set (C := gset Z)) by apply select_id_NoDup.
  f_equal. apply set_eq. intros k. rewrite !elem_of_list_to_set.
  apply update_entries_total_id.
Qed.

(** X4: [update_entries] touches nothing but [generated_on]: it neither
    adds nor deletes a row (an id that is no row is ignored), every
    other column of every row stays, and so the ids and the total that
    [progress] reports for a kind stay as they were. *)
Theorem update_entries_keeps_rows (db : gmap Z Row)
    (values : list (option string * option string)) (entry_type : string) :
  dom (update_entries db values) = dom db
  ∧ (∀ k r', update_entries db values !! k = Some r' →
       ∃ r, db !! k = Some r ∧ same_entry r r')
  ∧ (∀ k, k ∈ total_id (update_entries db values) entry_type
          ↔ k ∈ total_id db entry_type)
  ∧ (progress (update_entries db values) entry_type).2 = (progress db entry_type).2.
Proof.
  split_and!.
  - apply set_eq. intros k. rewrite !elem_of_dom.
    pose proof (update_entries_lookup values db k) as H.
    destruct (update_entries db values !! k) as [r'|].
    + destruct H as (r & -> & _). split; eauto.
    + rewrite H. split; intros [? ?]; done.
  - intros k r' Hr'. pose proof (update_entries_lookup values db k) as H.
    by rewrite Hr' in H.
  - intros k. apply update_entries_total_id.
  - apply progress_total_update.
Qed.



Lemma insert_entry_raises db e x : insert_entry db e = Raise x → x = IntegrityError.
Proof.
  unfold insert_entry. destruct (id e) as [s|]; [|done].
  destruct (sql_integer s) as [k|]; [|congruence].
  destruct (decide _); congruence.
Qed.

Lemma insert_entry_grows db db' e k :
  insert_entry db e = Ok db' → is_Some (db !! k) → is_Some (db' !! k).
Proof.
  unfold insert_entry. intros Hins Hk.
  assert (∀ j r, is_Some (<[j := r]> db !! k)) as Hgrow.
  { intros j r. destruct (decide (j = k)) as [->|]; [rewrite lookup_insert_eq; eauto|].
    by rewrite lookup_insert_ne. }
  destruct (id e) as [s|]; [|by simplify_eq].
  destruct (sql_integer s) as [j|]; [|done].
  destruct (decide _); by simplify_eq.
Qed.

Lemma insert_entries_raise values x :
  foldl (λ acc e, db' ← acc; insert_entry db' e) (Raise x) values = Raise x.
Proof. induction values; simpl; [done|]. done. Qed.

Lemma insert_entries_cons db e values :
  insert_entries db (e :: values) =
  match insert_entry db e with
  | Ok db' => insert_entries db' values
  | Raise x => Raise x
  end.
Proof.
  transitivity (foldl (λ acc e0, db' ← acc; insert_entry db' e0)
                  (insert_entry db e) values); [reflexivity|].
  destruct (insert_entry db e); [reflexivity|apply insert_entries_raise].
Qed.

Lemma insert_entries_raises (values : list Entry) : ∀ db x,
  insert_entries db values = Raise x → x = IntegrityError.
Proof.
  induction values as [|e values IH]; intros db x; [done|].
  rewrite insert_entries_cons. destruct (insert_entry db e) eqn:H; [by apply IH|].
  intros [= <-]. by eapply insert_entry_raises.
Qed.

Lemma insert_entries_present (values : list Entry) : ∀ db e s k,
  e ∈ values → id e = Some s → sql_integer s = Some k → is_Some (db !! k) →
  insert_entries db values = Raise IntegrityError.
Proof.
  induction values as [|e' values IH]; intros db e s k Hin Hid Hs Hk.
  { by apply elem_of_nil in Hin. }
  rewrite insert_entries_cons.
  destruct (insert_entry db e') as [db'|x] eqn:Hins.
  - apply elem_of_cons in Hin as [<-|Hin].
    + unfold insert_entry in Hins. rewrite Hid, Hs in Hins.
      by rewrite decide_True in Hins.
    + eapply IH; [done..|]. by eapply insert_entry_grows.
  - f_equal. by eapply insert_entry_raises.
Qed.

(** X6: a master list that names one id twice cannot be inserted:
    [insert_entries] raises [IntegrityError], whatever the table held
    and whatever else the list holds. *)
Theorem insert_entries_duplicate_id (db : gmap Z Row) (l1 l2 l3 : list Entry)
    (e1 e2 : Entry) (s1 s2 : string) (k : Z) :
  id e1 = Some s1 → id e2 = Some s2 →
  sql_integer s1 = Some k → sql_integer s2 = Some k →
  insert_entries db (l1 ++ e1 :: l2 ++ e2 :: l3) = Raise IntegrityError.
Proof.
  intros Hid1 Hid2 Hs1 Hs2. revert db.
  induction l1 as [|e l1 IH]; intros db; simpl.
  - rewrite insert_entries_cons.
    destruct (insert_entry db e1) as [db'|x] eqn:Hins.
    + eapply (insert_entries_present _ _ e2); [|done..|].
      * apply elem_of_app. right. by left.
      * unfold insert_entry in Hins. rewrite Hid1, Hs1 in Hins.
        destruct (decide _); simplify_eq. rewrite lookup_insert_eq. eauto.
    + f_equal. by eapply insert_entry_raises.
  - rewrite insert_entries_cons. destruct (insert_entry db e) as [db'|x] eqn:Hins.
    + apply IH.
    + f_equal. by eapply insert_entry_raises.
Qed.

Lemma insert_entries_duplicate_id_witness :
  insert_entries ∅
    ([] ++ index_to_tuple (item "1" "TV")
        :: [index_to_tuple (item "2" "TV")] ++ index_to_tuple (item "01" "manga") :: [])
  = Raise IntegrityError.
Proof.
  apply (insert_entries_duplicate_id ∅ [] [index_to_tuple (item "2" "TV")] []
           (index_to_tuple (item "1" "TV")) (index_to_tuple (item "01" "manga"))
           "1" "01" 1); reflexivity.
Defined.




(** ** Further properties: the queries *)

Lemma seen_subseteq_total db entry_type :
  (list_to_set (seen_id db entry_type) : gset Z) ⊆ list_to_set (total_id db entry_type).
Proof.
  intros k. rewrite !elem_of_list_to_set. unfold seen_id, total_id.
  rewrite !elem_of_select_id. intros (r & Hr & Hc).
  apply where_type_seen_true in Hc as [Hc _]. eauto.
Qed.

Lemma progress_not_seen_sum db entry_type :
  (progress db entry_type).1 + Z.of_nat (size (not_seen_of db entry_type))
  = (progress db entry_type).2.
Proof.
  unfold progress. simpl. rewrite !select_count_length.
  fold (seen_id db entry_type). fold (total_id db entry_type).
  unfold not_seen_of.
  rewrite size_difference by apply seen_subseteq_total.
  rewrite !size_list_to_set by apply select_id_NoDup.
  assert (length (seen_id db entry_type) ≤ length (total_id db entry_type))%nat; [|lia].
  rewrite <- !(size_list_to_set (C := gset Z)) by apply select_id_NoDup.
  apply subseteq_size, seen_subseteq_total.
Qed.

(** X8: the two counts of [progress] and the set [not_seen] that
    [download_entries] builds from the same table add up: fetched plus
    the number of unfetched ids is the total of the kind. *)
Theorem progress_and_not_seen (db : gmap Z Row) (entry_type : string) :
  (progress db entry_type).1 + Z.of_nat (size (not_seen_of db entry_type))
  = (progress db entry_type).2.
Proof. apply progress_not_seen_sum. Qed.

(** X9: an entry without a kind (a master-list item without [<type>]) is
    in neither bucket: no request kind selects it, so it is never counted
    by [progress] and never among the ids to download. *)
Theorem null_kind_never_selected (db : gmap Z Row) (k : Z) (r : Row)
    (entry_type : string) :
  db !! k = Some r → row_type r = None →
  (k ∉ total_id db entry_type)
  ∧ (k ∉ seen_id db entry_type)
  ∧ (k ∉ not_seen_of db entry_type).
Proof.
  intros Hk Hnull.
  assert (k ∉ total_id db entry_type) as Htot.
  { unfold total_id. rewrite elem_of_select_id. intros (r' & Hr' & Hc).
    simplify_eq. by rewrite where_type_null in Hc. }
  split_and!; [done| |].
  - intros Hs. apply Htot.
    pose proof (seen_subseteq_total db entry_type k) as H.
    rewrite !elem_of_list_to_set in H. by apply H.
  - intros Hn. apply Htot.
    pose proof (not_seen_subseteq_total db entry_type k Hn) as H.
    by rewrite elem_of_list_to_set in H.
Qed.

Lemma null_kind_never_selected_witness :
  let r := mkRow None None (Some "Untyped") None None None in
  let db : gmap Z Row := <[ 9 := r ]> three_anime in
  (9 ∉ total_id db "anime") ∧ (9 ∉ seen_id db "anime") ∧ (9 ∉ not_seen_of db "anime").
Proof.
  intros r db. apply (null_kind_never_selected db 9 r "anime"); reflexivity.
Defined.

(** X10: the two request kinds split the entries that have a kind: no id
    is selected both by [anime] and by a request for another kind, every
    entry with a kind is selected by one of the two, and the two totals of
    [progress] add up to the number of entries with a kind. *)
Theorem buckets_partition (db : gmap Z Row) (entry_type : string) :
  entry_type ≠ "anime" →
  (∀ k, ¬ (k ∈ total_id db "anime" ∧ k ∈ total_id db entry_type))
  ∧ (∀ k, k ∈ total_id db "anime" ∨ k ∈ total_id db entry_type
          ↔ ∃ r, db !! k = Some r ∧ is_Some (row_type r))
  ∧ (progress db "anime").2 + (progress db entry_type).2
    = Z.of_nat (size (filter (λ kv, is_Some (row_type kv.2)) db)).
Proof.
  intros Hne.
  assert (∀ r, where_type "anime" r = Some true
               ↔ ∃ s, row_type r = Some s ∧ ¬ manga_like s) as Ha.
  { intros r. destruct (row_type r) as [s|] eqn:Hs.
    - rewrite (where_type_string _ _ _ Hs). rewrite decide_True by done. naive_solver.
    - rewrite where_type_null by done. naive_solver. }
  assert (∀ r, where_type entry_type r = Some true
               ↔ ∃ s, row_type r = Some s ∧ manga_like s) as Hm.
  { intros r. destruct (row_type r) as [s|] eqn:Hs.
    - rewrite (where_type_string _ _ _ Hs). rewrite decide_False by done. naive_solver.
    - rewrite where_type_null by done. naive_solver. }
  assert (Hdisj : ∀ k, ¬ (k ∈ total_id db "anime" ∧ k ∈ total_id db entry_type)).
  { intros k. unfold total_id. rewrite !elem_of_select_id.
    intros [(r & Hr & (s & Hs & Hn)%Ha) (r' & Hr' & (s' & Hs' & Hy)%Hm)].
    simplify_eq. }
  assert (Hcover : ∀ k, k ∈ total_id db "anime" ∨ k ∈ total_id db entry_type
          ↔ ∃ r, db !! k = Some r ∧ is_Some (row_type r)).
  { intros k. unfold total_id. rewrite !elem_of_select_id. split.
    - intros [(r & Hr & (s & Hs & _)%Ha)|(r & Hr & (s & Hs & _)%Hm)]; eauto.
    - intros (r & Hr & [s Hs]). destruct (decide (manga_like s)).
      + right. exists r. split; [done|]. apply Hm. eauto.
      + left. exists r. split; [done|]. apply Ha. eauto. }
  split_and!; [done|done|].
  unfold progress. simpl. rewrite !select_count_length.
  fold (total_id db "anime"). fold (total_id db entry_type).
  rewrite <- !(size_list_to_set (C := gset Z)) by apply select_id_NoDup.
  rewrite <- Nat2Z.inj_add, <- size_union.
  2:{ intros k. rewrite !elem_of_list_to_set. intros ? ?. by apply (Hdisj k). }
  f_equal. rewrite <- size_dom. f_equal. apply set_eq. intros k.
  rewrite elem_of_union, !elem_of_list_to_set, Hcover, elem_of_dom.
  split.
  - intros (r & Hr & Ht). exists r. by apply map_lookup_filter_Some.
  - intros [r (Hr & Ht)%map_lookup_filter_Some]. eauto.
Qed.

Lemma buckets_partition_witness :
  (∀ k, ¬ (k ∈ total_id three_anime "anime" ∧ k ∈ total_id three_anime "manga"))
  ∧ (∀ k, k ∈ total_id three_anime "anime" ∨ k ∈ total_id three_anime "manga"
          ↔ ∃ r, three_anime !! k = Some r ∧ is_Some (row_type r))
  ∧ (progress three_anime "anime").2 + (progress three_anime "manga").2
    = Z.of_nat (size (filter (λ kv, is_Some (row_type kv.2)) three_anime)).
Proof. apply (buckets_partition three_anime "manga"). discriminate. Defined.

(** ** Further properties: regenerate_database and main *)

Lemma insert_entries_unfetched (values : list Entry) : ∀ (db db' : gmap Z Row),
  insert_entries db values = Ok db' →
  Forall (λ e, generated_on e = None) values →
  (∀ k r, db !! k = Some r → row_generated_on r = None) →
  ∀ k r, db' !! k = Some r → row_generated_on r = None.
Proof.
  induction values as [|e values IH]; intros db db' Hins Hall Hdb.
  { unfold insert_entries in Hins. simpl in Hins. by simplify_eq. }
  rewrite insert_entries_cons in Hins.
  apply Forall_cons in Hall as [He Hall].
  destruct (insert_entry db e) as [db1|] eqn:H1; [|done].
  eapply IH; [exact Hins|done|].
  assert (∀ j k r, <[j := row_of e]> db !! k = Some r → row_generated_on r = None) as Hrow.
  { intros j k r. destruct (decide (j = k)) as [->|].
    - rewrite lookup_insert_eq. intros [= <-]. done.
    - rewrite lookup_insert_ne by done. apply Hdb. }
  unfold insert_entry in H1. destruct (id e) as [s|]; [|simplify_eq; eauto].
  destruct (sql_integer s) as [j|]; [|done].
  destruct (decide _); simplify_eq. eauto.
Qed.

Lemma download_cached_other master path fs p :
  p ≠ path → download_cached master path fs !! p = fs !! p.
Proof.
  intros Hp. unfold download_cached. destruct (fs !! path); [done|].
  by rewrite lookup_insert_ne.
Qed.

(** X11: regenerating without any downloaded document gives an index in
    which nothing is fetched: every row has a NULL [generated_on], the
    fetched count of [progress] is 0 for every kind, and no file but the
    cached master list is written. *)
Theorem regenerate_without_documents (master : list Element)
    (fs fs' : gmap string (list Element)) (db : gmap Z Row) (entry_type : string) :
  fs !! "anime.xml" = None → fs !! "manga.xml" = None →
  regenerate_database master fs = (Ok db, fs') →
  (∀ k r, db !! k = Some r → row_generated_on r = None)
  ∧ (progress db entry_type).1 = 0
  ∧ fs' = download_cached master "index.xml" fs.
Proof.
  intros Ha Hm. unfold regenerate_database.
  set (fs1 := download_cached master "index.xml" fs).
  assert (fs1 !! xml_path "anime" = None) as Ha1.
  { unfold fs1. change (xml_path "anime") with "anime.xml".
    by rewrite download_cached_other. }
  assert (fs1 !! xml_path "manga" = None) as Hm1.
  { unfold fs1. change (xml_path "manga") with "manga.xml".
    by rewrite download_cached_other. }
  destruct (insert_entries _ _) as [db0|] eqn:Hins; [|done].
  cbn [foldl]. unfold load_cached at 2. rewrite Ha1.
  unfold load_cached. rewrite Hm1. intros [= <- <-].
  assert (∀ k r, db0 !! k = Some r → row_generated_on r = None) as Hnone.
  { eapply insert_entries_unfetched; [exact Hins| |done].
    apply Forall_fmap, Forall_forall. done. }
  split_and!; [done| |done].
  unfold progress. simpl. rewrite select_count_length.
  assert (select_id (where_type_seen entry_type) db0 = []) as ->; [|done].
  apply elem_of_nil_inv. intros k (r & Hr & Hc)%elem_of_select_id.
  apply where_type_seen_true in Hc as [_ [d Hd]].
  rewrite (Hnone _ _ Hr) in Hd. done.
Qed.

Lemma regenerate_without_documents_witness :
  ∃ db fs',
    regenerate_database master_two ∅ = (Ok db, fs')
    ∧ (∀ k r, db !! k = Some r → row_generated_on r = None)
    ∧ (progress db "anime").1 = 0
    ∧ fs' = download_cached master_two "index.xml" ∅.
Proof.
  eexists _, _. split; [vm_compute; reflexivity|].
  eapply (regenerate_without_documents master_two ∅ _ _ "anime");
    [reflexivity|reflexivity|vm_compute; reflexivity].
Defined.

Lemma load_cached_other st entry_type p :
  p ≠ xml_path entry_type → (load_cached st entry_type).2 !! p = st.2 !! p.
Proof.
  intros Hp. destruct st as [[db|e] fs]; [|done]. unfold load_cached.
  destruct (fs !! xml_path entry_type); [|done].
  destruct (remove_duplicates _); [|done]. simpl. by rewrite lookup_insert_ne.
Qed.

(** X12: the master list is fetched once: after a regeneration
    [index.xml] holds the list that was cached before, or else the list
    just served, and with a cached [index.xml] the run does not depend on
    what the catalogue would serve now. *)
Theorem regenerate_index_cache (master : list Element) (fs : gmap string (list Element)) :
  (regenerate_database master fs).2 !! "index.xml"
  = Some (default master (fs !! "index.xml"))
  ∧ (is_Some (fs !! "index.xml") →
     ∀ master', regenerate_database master' fs = regenerate_database master fs).
Proof.
  split.
  - unfold regenerate_database.
    set (fs1 := download_cached master "index.xml" fs).
    assert (fs1 !! "index.xml" = Some (default master (fs !! "index.xml"))) as H1.
    { unfold fs1, download_cached. destruct (fs !! "index.xml") eqn:H; simpl.
      - by rewrite H.
      - by rewrite lookup_insert_eq. }
    destruct (insert_entries _ _) as [db|]; [|done].
    cbn [foldl]. rewrite !load_cached_other by done. done.
  - intros [doc Hdoc] master'. unfold regenerate_database, download_cached.
    by rewrite Hdoc.
Qed.

(** X13: on documents without duplicate ids a regeneration is
    idempotent: run again on the files the first run left, it gives the
    same table and leaves the same files. *)
Theorem regenerate_idempotent_without_duplicates (master : list Element)
    (fs : gmap string (list Element)) :
  (∀ doc, fs !! "anime.xml" = Some doc → clean doc) →
  (∀ doc, fs !! "manga.xml" = Some doc → clean doc) →
  regenerate_database master (regenerate_database master fs).2
  = regenerate_database master fs.
Proof. apply regenerate_clean_idempotent. Qed.

Lemma regenerate_idempotent_without_duplicates_witness :
  let fs : gmap string (list Element) :=
    {[ "anime.xml" := anime_records ["1"; "2"] ]} in
  regenerate_database master_two (regenerate_database master_two fs).2
  = regenerate_database master_two fs.
Proof.
  intros fs. apply (regenerate_idempotent_without_duplicates master_two fs).
  - intros doc Hdoc. vm_compute in Hdoc. injection Hdoc as <-.
    exists ["1"; "2"]. split; [reflexivity|].
    repeat (constructor; [set_solver|]). constructor.
  - intros doc Hdoc. vm_compute in Hdoc. discriminate.
Defined.



(** X15: [main] always comes to an end: it calls [download_entries]
    with the batch size 50, so for every argument list, database, files
    and catalogue there is an amount of fuel from which the run has an
    outcome, [Done] or an exception. *)
Theorem main_terminates (master : list Element) (api : Api) (args : Args)
    (db : option (gmap Z Row)) (fs : gmap string (list Element)) (g : Rng) :
  ∃ fuel0, ∀ fuel, (fuel0 ≤ fuel)%nat →
    (main fuel master api args db fs g).1 ≠ OutOfFuel.
Proof.
  unfold main.
  set (opened := match db with
                 | Some rows => if regenerate_db args then regenerate_database master fs
                                else (Ok rows, fs)
                 | None => regenerate_database master fs
                 end).
  destruct opened as [[rows|e] fs']; [|by exists 0%nat].
  set (w := mkWorld fs' (connect rows) g 0 []).
  destruct (status args).
  - destruct (progress rows (arg_entry_type args)) as [seen total].
    destruct (log_progress seen total w) as [w'|e]; [|by exists 0%nat].
    rewrite orb_true_r. by exists 0%nat.
  - rewrite orb_false_r. destruct (regenerate_db args); simpl; [by exists 0%nat|].
    exists (S (Z.to_nat (effective_count w (arg_entry_type args) (arg_num_entries args)))).
    intros fuel Hfuel. unfold download_entries.
    apply download_loop_terminates; [lia|].
    unfold effective_count in Hfuel. lia.
Qed.

(** ** Further properties: the fetch loop *)

Lemma to_download_of_ok not_seen num_batch g to_download g' :
  to_download_of not_seen num_batch g = Ok (to_download, g') →
  to_download ⊆ not_seen ∧ Z.of_nat (size to_download) ≤ num_batch.
Proof.
  unfold to_download_of.
  destruct (decide (Z.of_nat (size not_seen) ≤ num_batch)) as [Hle|Hgt].
  { intros [= <- <-]. done. }
  destruct (random_sample _ _ _) as [[l g1]|e] eqn:Hs; [|done].
  intros [= <- <-].
  unfold random_sample in Hs. destruct (decide _) as [Hk|]; [|done].
  destruct (random_sample_spec (elements not_seen) num_batch g Hk (NoDup_elements _))
    as (l' & g2 & Hs' & Hlen & Hnd & Hsub).
  unfold random_sample in Hs'. rewrite decide_True in Hs' by done.
  rewrite Hs in Hs'. simplify_eq. split.
  - intros x Hx%elem_of_list_to_set. apply elem_of_elements. by apply Hsub.
  - rewrite size_list_to_set by done. lia.
Qed.

Section requests.
Context (api : Api) (entry_type : string) (total_id : list Z).

Lemma download_loop_requests (fuel : nat) : ∀ num_entries num_batch not_seen local w,
  let run := download_loop fuel api entry_type total_id num_entries num_batch
               not_seen local w in
  ∃ t, trace run.2 = trace w ++ t
    ∧ Forall (λ ids, ids ⊆ not_seen ∧ Z.of_nat (size ids) ≤ num_batch) (requested t)
    ∧ (∀ i j a b, (i < j)%nat → requested t !! i = Some a →
                  requested t !! j = Some b → a ## b)
    ∧ Z.of_nat (sum_list_with size (requested t)) ≤ Z.max num_entries 0.
Proof.
  induction fuel as [|fuel IH]; intros N B ns local w; cbv zeta.
  { exists []. split_and!; [by rewrite app_nil_r|constructor|done|simpl; lia]. }
  rewrite download_loop_unfold.
  destruct (decide (N > 0)) as [HN|HN];
    [|exists []; split_and!; [by rewrite app_nil_r|constructor|done|simpl; lia]].
  cbv zeta.
  destruct (to_download_of _ _ _) as [[td g']|e] eqn:Htd;
    [|exists []; split_and!; [by rewrite app_nil_r|constructor|done|simpl; lia]].
  apply to_download_of_ok in Htd as [Hsub Hsize].
  assert (∀ rest : list event,
    requested rest = [] →
    Forall (λ ids, ids ⊆ ns ∧ Z.of_nat (size ids) ≤ B)
      (requested (EvRequest entry_type td :: rest))
    ∧ (∀ i j a b, (i < j)%nat →
         requested (EvRequest entry_type td :: rest) !! i = Some a →
         requested (EvRequest entry_type td :: rest) !! j = Some b → a ## b)
    ∧ Z.of_nat (sum_list_with size (requested (EvRequest entry_type td :: rest)))
      ≤ Z.max N 0) as Hone.
  { intros rest Hrest.
    change (requested (?a :: rest)) with (requested [a] ++ requested rest).
    rewrite Hrest. simpl. split_and!.
    - repeat constructor; [done|lia].
    - intros [|i] [|[|j]] a b Hij; simpl; intros; simplify_eq; lia.
    - lia. }
  destruct (api _ _ _) as [tree|e].
  2:{ eexists [_]. split; [reflexivity|]. by apply Hone. }
  unfold log_progress. destruct (decide (_ = 0)).
  { eexists [_; _; _]. split; [simpl; by rewrite <- !app_assoc|]. by apply Hone. }
  match goal with |- context [download_loop fuel _ _ _ ?n ?b ?s ?l ?w'] =>
    destruct (IH n b s l w') as (t & Ht & Hall & Hdisj & Hsum) end.
  rewrite Ht.
  eexists (_ :: _ :: _ :: _ :: _ :: t). split; [simpl; by rewrite <- !app_assoc|].
  change (requested (?a :: ?b :: ?c :: ?d :: ?e :: t)) with
    (requested [a; b; c; d; e] ++ requested t).
  simpl. split_and!.
  - constructor; [split; [done|lia]|].
    eapply Forall_impl; [exact Hall|]. simpl. intros ids [? ?]. split; [set_solver|lia].
  - intros i j a b Hij Ha Hb. destruct j as [|j]; [lia|].
    destruct i as [|i]; simpl in Ha, Hb.
    + assert (a = td) as -> by congruence.
      assert (b ⊆ ns ∖ td) as Hb'.
      { eapply (Forall_lookup_1 _ _ _ _ Hall Hb). }
      set_solver.
    + eapply (Hdisj i j); [lia|done|done].
  - lia.
Qed.

(** Whatever the outcome, the loop changes at most one file, by putting
    records of the requested kind after the tree it started with. *)
Lemma download_loop_files (fuel : nat) : ∀ num_entries num_batch not_seen local w,
  let run := download_loop fuel api entry_type total_id num_entries num_batch
               not_seen local w in
  files run.2 = files w
  ∨ ∃ added, files run.2 = <[xml_path entry_type := local ++ added]> (files w)
             ∧ Forall (λ n, tag n = entry_type) added.
Proof.
  induction fuel as [|fuel IH]; intros N B ns local w; cbv zeta; [by left|].
  rewrite download_loop_unfold.
  destruct (decide (N > 0)); [|by left]. cbv zeta.
  destruct (to_download_of _ _ _) as [[td g']|e]; [|by left].
  destruct (api _ _ _) as [tree|e]; [|by left].
  assert (Forall (λ n, tag n = entry_type) (findall entry_type tree)) as Htag.
  { apply Forall_forall. intros n Hn. unfold findall in Hn.
    by apply list_elem_of_filter in Hn as [? _]. }
  unfold log_progress. destruct (decide (_ = 0)).
  { right. by exists (findall entry_type tree). }
  match goal with |- context [download_loop fuel _ _ _ ?n ?b ?s ?l ?w'] =>
    destruct (IH n b s l w') as [Hsame|(added & Hfiles & Hadded)] end.
  - right. exists (findall entry_type tree). by rewrite Hsame.
  - right. exists (findall entry_type tree ++ added). split.
    + rewrite Hfiles. simpl. by rewrite insert_insert_eq, app_assoc.
    + by apply Forall_app.
Qed.

(** A run that ends normally has committed everything it did. *)
Lemma download_loop_committed (fuel : nat) : ∀ num_entries num_batch not_seen local w,
  let run := download_loop fuel api entry_type total_id num_entries num_batch
               not_seen local w in
  run.1 = Done → committed (conn w) = working (conn w) →
  committed (conn run.2) = working (conn run.2).
Proof.
  induction fuel as [|fuel IH]; intros N B ns local w; cbv zeta; [done|].
  rewrite download_loop_unfold.
  destruct (decide (N > 0)); [|done]. cbv zeta.
  destruct (to_download_of _ _ _) as [[td g']|e]; [|done].
  destruct (api _ _ _) as [tree|e]; [|done].
  unfold log_progress. destruct (decide (_ = 0)); [done|].
  intros Hdone _. by apply IH.
Qed.
End requests.

(** X16: a run requests only ids that were unfetched ids of the kind
    when it started, and no id twice: every requested set is a part of
    [not_seen], and the sets of two different requests are disjoint. *)
Theorem requests_only_unseen (fuel : nat) (api : Api) (w : World)
    (entry_type : string) (num_entries num_batch : Z) :
  let run := download_entries fuel api w entry_type num_entries num_batch in
  ∃ t, trace run.2 = trace w ++ t
    ∧ (∀ ids, ids ∈ requested t → ids ⊆ not_seen_of (working (conn w)) entry_type)
    ∧ (∀ i j a b, (i < j)%nat → requested t !! i = Some a →
                  requested t !! j = Some b → a ## b).
Proof.
  intros run. unfold run, download_entries.
  edestruct download_loop_requests as (t & Ht & Hall & Hdisj & _).
  exists t. split_and!; [exact Ht| |exact Hdisj].
  intros ids Hids. by apply (proj1 (Forall_forall _ _) Hall ids Hids).
Qed.

(** X17: no request is larger than the batch size, and the requests of
    a run together ask for no more ids than the count (for a negative
    count: than the number of unfetched ids). *)
Theorem requests_bounded (fuel : nat) (api : Api) (w : World)
    (entry_type : string) (num_entries num_batch : Z) :
  let run := download_entries fuel api w entry_type num_entries num_batch in
  ∃ t, trace run.2 = trace w ++ t
    ∧ Forall (λ ids, Z.of_nat (size ids) ≤ num_batch) (requested t)
    ∧ Z.of_nat (sum_list_with size (requested t))
      ≤ Z.max (effective_count w entry_type num_entries) 0.
Proof.
  intros run. unfold run, download_entries, effective_count.
  edestruct download_loop_requests as (t & Ht & Hall & _ & Hsum).
  exists t. split_and!; [exact Ht| |exact Hsum].
  eapply Forall_impl; [exact Hall|]. by intros ids [_ ?].
Qed.

(** X18: [download_entries] only appends to the document of its kind:
    whatever the outcome, the file then holds what it held before (nothing
    for a file that did not exist) followed by records whose tag is the
    requested kind, and every other file is as it was. *)
Theorem document_only_grows (fuel : nat) (api : Api) (w : World)
    (entry_type : string) (num_entries num_batch : Z) :
  let run := download_entries fuel api w entry_type num_entries num_batch in
  let path := xml_path entry_type in
  ∃ added,
    default [] (files run.2 !! path) = default [] (files w !! path) ++ added
    ∧ Forall (λ n, tag n = entry_type) added
    ∧ ∀ p, p ≠ path → files run.2 !! p = files w !! p.
Proof.
  intros run path. unfold run, download_entries.
  edestruct download_loop_files as [Hsame|(added & Hfiles & Htag)].
  - exists []. rewrite Hsame. split_and!; [by rewrite app_nil_r|done|done].
  - exists added. rewrite Hfiles. split_and!; [|done|].
    + by rewrite lookup_insert_eq.
    + intros p Hp. by rewrite lookup_insert_ne.
Qed.

(** X19: a run that starts with nothing pending and ends normally leaves
    nothing pending: the database file holds every update it made. *)
Theorem done_run_is_committed (fuel : nat) (api : Api) (w : World)
    (entry_type : string) (num_entries num_batch : Z) :
  let run := download_entries fuel api w entry_type num_entries num_batch in
  run.1 = Done → committed (conn w) = working (conn w) →
  committed (conn run.2) = working (conn run.2).
Proof. intros run. unfold run, download_entries. apply download_loop_committed. Qed.

Lemma done_run_is_committed_witness :
  let run := download_entries 5 api_one world_three "anime" (-1) 1 in
  committed (conn run.2) = working (conn run.2).
Proof.
  apply (done_run_is_committed 5 api_one world_three "anime" (-1) 1).
  - vm_compute. reflexivity.
  - reflexivity.
Defined.

(** ** Further properties: a whole download *)

Lemma update_entries_marks db values v k :
  Forall (λ v, is_Some v.1) values →
  v ∈ values → v.2 ≫= sql_integer = Some k → is_Some (db !! k) →
  fetched (update_entries db values) k.
Proof.
  intros Hall Hv Hk Hin.
  apply list_elem_of_split in Hv as (l1 & l2 & ->).
  apply Forall_app in Hall as [_ Hall]. apply Forall_cons in Hall as [[d Hd] Hall].
  unfold update_entries. rewrite foldl_app. simpl.
  fold (update_entries db l1).
  apply (update_entries_fetched _ l2 k Hall).
  assert (is_Some (update_entries db l1 !! k)) as [r Hr].
  { pose proof (update_entries_lookup l1 db k) as H.
    destruct (update_entries db l1 !! k); [eauto|]. destruct Hin. congruence. }
  exists (set_generated_on v.1 r). split.
  - rewrite update_entry_lookup. rewrite decide_True by done. by rewrite Hr.
  - simpl. rewrite Hd. eauto.
Qed.

Lemma download_loop_completes (api : Api) (entry_type : string) (total_id : list Z)
    (fuel : nat) : ∀ num_batch not_seen local w,
  answers_dated api entry_type →
  0 < num_batch →
  (size not_seen ≤ length total_id)%nat →
  (size not_seen < fuel)%nat →
  (∀ k, k ∈ not_seen → is_Some (working (conn w) !! k)) →
  let run := download_loop fuel api entry_type total_id
               (Z.of_nat (size not_seen)) num_batch not_seen local w in
  run.1 = Done
  ∧ ∀ k, k ∈ not_seen ∨ fetched (working (conn w)) k →
         fetched (working (conn run.2)) k.
Proof.
  intros B ns local w Hapi. revert B ns local w.
  induction fuel as [|fuel IH]; intros B ns local w HB Htot Hfuel Hdom; [lia|].
  cbv zeta. rewrite download_loop_unfold.
  destruct (decide (Z.of_nat (size ns) > 0)) as [HN|HN].
  2:{ split; [done|]. intros k [Hk|Hk]; [|done].
      assert (size ns = 0%nat) as H0 by lia.
      apply size_empty_inv in H0. set_solver. }
  cbv zeta.
  assert (0 < Z.min B (Z.of_nat (size ns))) as Hmin by lia.
  destruct (to_download_of_spec ns (Z.min B (Z.of_nat (size ns))) (rng w) Hmin)
    as (td & g' & -> & Hsub & Hsize & _).
  destruct (Hapi (calls w) td) as (tree & -> & Hcover & Hdated).
  unfold log_progress. rewrite decide_False by lia.
  assert (size (ns ∖ td) = (size ns - size td)%nat) as Hdiff
    by (by apply size_difference).
  replace (Z.of_nat (size ns) - Z.min B (Z.of_nat (size ns)))
    with (Z.of_nat (size (ns ∖ td))) by lia.
  set (values := entry_to_tuple <$> findall entry_type tree).
  assert (Forall (λ v : option string * option string, is_Some v.1) values) as Hvalues.
  { apply Forall_fmap, Forall_forall. intros node Hn. by apply Hdated. }
  assert (∀ k, k ∈ td ∨ fetched (working (conn w)) k →
               fetched (update_entries (working (conn w)) values) k) as Hround.
  { intros k [Hk|Hk]; [|by apply update_entries_fetched].
    destruct (Hcover k Hk) as (node & s & Hn & Hid & Hs).
    apply (update_entries_marks _ _ (entry_to_tuple node)); [done| | |].
    - by apply list_elem_of_fmap_2.
    - simpl. by rewrite Hid.
    - apply Hdom. by apply Hsub. }
  match goal with |- context [download_loop fuel _ _ _ _ ?b ?s ?l ?w'] =>
    destruct (IH b s l w' ltac:(lia) ltac:(lia) ltac:(lia)) as [Hdone Hfetched] end.
  { intros k Hk. simpl.
    pose proof (update_entries_lookup values (working (conn w)) k) as H.
    destruct (update_entries (working (conn w)) values !! k); [eauto|].
    destruct (Hdom k) as [r Hr]; [set_solver|]. congruence. }
  split; [done|]. intros k Hk. apply Hfetched.
  destruct (decide (k ∈ td)) as [Hin|Hnin].
  - right. apply Hround. by left.
  - destruct Hk as [Hk|Hk]; [left; set_solver|].
    right. apply Hround. by right.
Qed.

(** X20: downloading everything completes the mirror: with a negative
    count, a batch size above 0 and a catalogue that answers each request
    with a dated record for every requested id, the run ends normally,
    no id of the kind is left unfetched, and [progress] then reports
    the total of the kind as fetched. *)
Theorem download_all_completes (fuel : nat) (api : Api) (w : World)
    (entry_type : string) (num_entries num_batch : Z) :
  num_entries < 0 →
  0 < num_batch →
  answers_dated api entry_type →
  (size (not_seen_of (working (conn w)) entry_type) < fuel)%nat →
  let run := download_entries fuel api w entry_type num_entries num_batch in
  let total := (progress (working (conn w)) entry_type).2 in
  run.1 = Done
  ∧ not_seen_of (working (conn run.2)) entry_type = ∅
  ∧ progress (working (conn run.2)) entry_type = (total, total).
Proof.
  intros HN HB Hapi Hfuel run total.
  set (db := working (conn w)) in *.
  destruct (download_loop_completes api entry_type (total_id db entry_type) fuel
              num_batch (not_seen_of db entry_type)
              (default [] (files w !! xml_path entry_type)) w Hapi HB
              (size_not_seen_le_total db entry_type) Hfuel) as [Hdone Hfetched].
  { intros k (r & Hr & _)%elem_of_not_seen_of. eauto. }
  assert (run = download_loop fuel api entry_type (total_id db entry_type)
                  (Z.of_nat (size (not_seen_of db entry_type))) num_batch
                  (not_seen_of db entry_type)
                  (default [] (files w !! xml_path entry_type)) w) as Hrun.
  { unfold run, download_entries. by rewrite decide_True. }
  rewrite Hrun. split; [done|].
  set (final := download_loop _ _ _ _ _ _ _ _ _) in *.
  destruct (download_loop_rounds fuel api entry_type (total_id db entry_type)
              (Z.of_nat (size (not_seen_of db entry_type))) num_batch
              (not_seen_of db entry_type)
              (default [] (files w !! xml_path entry_type)) w)
    as (t & _ & _ & _ & Hconn).
  fold final in Hconn.
  assert (working (conn final.2) = update_entries db (marked t)) as Hfinal.
  { rewrite Hconn. apply replay_conn_working. }
  assert (not_seen_of (working (conn final.2)) entry_type = ∅) as Hempty.
  { apply set_eq. intros k. split; [|set_solver]. intros Hk. exfalso.
    apply (fetched_not_in_not_seen (working (conn final.2)) entry_type k); [|done].
    apply Hfetched.
    apply not_seen_subseteq_total, elem_of_list_to_set in Hk.
    rewrite Hfinal in Hk. apply update_entries_total_id in Hk.
    destruct (decide (k ∈ not_seen_of db entry_type)) as [?|Hseen]; [by left|right].
    unfold total_id in Hk. apply elem_of_select_id in Hk as (r & Hr & Hc).
    exists r. split; [done|].
    destruct (row_generated_on r) eqn:Hg; [eauto|].
    exfalso. apply Hseen. apply elem_of_not_seen_of. eauto. }
  split; [done|].
  pose proof (progress_not_seen_sum (working (conn final.2)) entry_type) as Hsum.
  rewrite Hempty, size_empty in Hsum.
  assert ((progress (working (conn final.2)) entry_type).2 = total) as Htotal.
  { rewrite Hfinal. apply progress_total_update. }
  destruct (progress (working (conn final.2)) entry_type) as [s n].
  simpl in *. f_equal; lia.
Qed.

Lemma sql_integer_numeral (k : Z) :
  sql_integer (NilZero.string_of_int (Z.to_int k)) = Some k.
Proof.
  unfold sql_integer. rewrite NilZero.isi.
  - simpl. by rewrite DecimalZ.of_to.
  - destruct k as [|p|p]; simpl; [done| |done].
    intros [= H]. by apply (DecimalPos.Unsigned.to_uint_nonnil p).
  - destruct k as [|p|p]; simpl; [done|done|].
    intros [= H]. by apply (DecimalPos.Unsigned.to_uint_nonnil p).
Qed.

Lemma api_all_answers_dated entry_type : answers_dated api_all entry_type.
Proof.
  intros n ids. eexists. split; [reflexivity|]. split.
  - intros k Hk.
    exists (record entry_type (NilZero.string_of_int (Z.to_int k)) (Some "2016-07-01")),
           (NilZero.string_of_int (Z.to_int k)).
    split_and!.
    + unfold findall. apply list_elem_of_filter. split; [done|].
      apply list_elem_of_fmap. exists k. split; [done|]. by apply elem_of_elements.
    + reflexivity.
    + apply sql_integer_numeral.
  - intros node Hn. unfold findall in Hn.
    apply list_elem_of_filter in Hn as [_ (k & -> & _)%list_elem_of_fmap].
    eexists. reflexivity.
Qed.

Lemma download_all_completes_witness :
  let run := download_entries 5 api_all world_three "anime" (-1) 1 in
  let total := (progress (working (conn world_three)) "anime").2 in
  run.1 = Done
  ∧ not_seen_of (working (conn run.2)) "anime" = ∅
  ∧ progress (working (conn run.2)) "anime" = (total, total).
Proof.
  apply (download_all_completes 5 api_all world_three "anime" (-1) 1).
  - lia.
  - lia.
  - apply api_all_answers_dated.
  - vm_compute. lia.
Defined.

Example download_all_three :
  progress (working (conn (download_entries 5 api_all world_three "anime" (-1) 1).2))
    "anime" = (3, 3).
Proof. vm_compute. reflexivity. Qed.

(** ** Further properties: batch sizes that are not positive *)

(** X21: with a negative batch size and a count that makes the loop
    start, the first round raises [ValueError] ([random.sample] with a
    negative size) before anything is requested or written. *)
Theorem negative_batch_raises (fuel : nat) (api : Api) (w : World)
    (entry_type : string) (num_entries num_batch : Z) :
  num_batch < 0 →
  0 < effective_count w entry_type num_entries →
  download_entries (S fuel) api w entry_type num_entries num_batch
  = (Raised ValueError, w).
Proof.
  intros HB HN. unfold download_entries, effective_count in *.
  rewrite download_loop_unfold. rewrite decide_True by lia. cbv zeta.
  unfold to_download_of. rewrite decide_False by lia.
  unfold random_sample. rewrite decide_False by lia. done.
Qed.

Lemma negative_batch_raises_witness :
  download_entries 1 api_one world_one "anime" 5 (-1) = (Raised ValueError, world_one).
Proof.
  apply (negative_batch_raises 0 api_one world_one "anime" 5 (-1)).
  - lia.
  - vm_compute. reflexivity.
Defined.

Lemma to_download_of_zero not_seen g :
  ∃ g', to_download_of not_seen 0 g = Ok (∅, g').
Proof.
  unfold to_download_of. destruct (decide (Z.of_nat (size not_seen) ≤ 0)) as [H0|H0].
  - exists g. assert (size not_seen = 0%nat) as Hs by lia.
    apply size_empty_inv, leibniz_equiv in Hs. by subst.
  - unfold random_sample. rewrite decide_True by lia. simpl. by eexists.
Qed.

Lemma download_loop_zero_batch (api : Api) (entry_type : string) (total_id : list Z)
    (fuel : nat) : ∀ num_entries not_seen local w,
  (∀ n k ids, ∃ tree, api n k ids = Ok tree) →
  total_id ≠ [] → num_entries > 0 →
  let run := download_loop fuel api entry_type total_id num_entries 0
               not_seen local w in
  run.1 = OutOfFuel
  ∧ ∃ t, trace run.2 = trace w ++ t ∧ requested t = replicate fuel ∅.
Proof.
  intros N ns local w Hapi Htot HN. revert ns local w.
  induction fuel as [|fuel IH]; intros ns local w; cbv zeta.
  { split; [done|]. exists []. by rewrite app_nil_r. }
  rewrite download_loop_unfold. rewrite decide_True by done. cbv zeta.
  rewrite Z.min_l by lia.
  destruct (to_download_of_zero ns (rng w)) as [g' ->].
  destruct (Hapi (calls w) entry_type ∅) as [tree ->].
  unfold log_progress. rewrite decide_False.
  2:{ destruct total_id; [done|]. simpl. lia. }
  rewrite Z.sub_0_r.
  match goal with |- context [download_loop fuel _ _ _ _ _ ?s ?l ?w'] =>
    destruct (IH s l w') as (Hout & t & Ht & Hreq) end.
  split; [done|]. rewrite Ht.
  eexists (_ :: _ :: _ :: _ :: _ :: t). split.
  - simpl. by rewrite <- !app_assoc.
  - change (requested (?a :: ?b :: ?c :: ?d :: ?e :: t)) with
      (requested [a; b; c; d; e] ++ requested t).
    simpl. by rewrite Hreq.
Qed.

(** X22: with batch size 0 the loop does not end: the count never
    decreases, and with a catalogue that answers and a kind that has
    entries every round requests the empty set, so every amount of fuel
    runs out, after as many empty requests. *)
Theorem zero_batch_never_ends (fuel : nat) (api : Api) (w : World)
    (entry_type : string) (num_entries : Z) :
  (∀ n k ids, ∃ tree, api n k ids = Ok tree) →
  total_id (working (conn w)) entry_type ≠ [] →
  0 < effective_count w entry_type num_entries →
  let run := download_entries fuel api w entry_type num_entries 0 in
  run.1 = OutOfFuel
  ∧ ∃ t, trace run.2 = trace w ++ t ∧ requested t = replicate fuel ∅.
Proof.
  intros Hapi Htot HN run. unfold run, download_entries, effective_count in *.
  apply download_loop_zero_batch; [done|done|lia].
Qed.

Lemma zero_batch_never_ends_witness :
  let run := download_entries 4 api_one world_one "anime" 1 0 in
  run.1 = OutOfFuel
  ∧ ∃ t, trace run.2 = trace world_one ++ t ∧ requested t = replicate 4 ∅.
Proof.
  apply (zero_batch_never_ends 4 api_one world_one "anime" 1).
  - intros n k ids. eexists. reflexivity.
  - vm_compute. discriminate.
  - vm_compute. reflexivity.
Defined.

(** ** Further properties: what a regeneration marks *)



